(** * PeopleMath front-end: the computations of its components

    A shallow embedding of the view components of the planning UI
    (assignments by person, assignments by group or tag, the people table,
    the bucket editor) and of the REST storage service, with the
    properties that the description of the repository states about them.

    Conventions of the embedding.
    - A JavaScript [number] is a rational ([Q]): the values that reach
      these components are finite quantities of resources, and rounding,
      infinities and NaN are left out.  Numeric equality is [Qeq].
    - A JavaScript [string] is a [string]; [===] on strings is [String.eqb].
    - A [Map] that the code iterates is an association list in insertion
      order; a [ReadonlyMap] that is only looked up is a [gmap].
    - [Array.prototype.sort] is the stable sort that ECMAScript requires:
      an element moves behind a later one only when the comparator is
      positive on the pair. *)

From Stdlib Require Import QArith ZArith List Sorted Permutation String Lia Lqa.
From Stdlib Require OrderedTypeEx.
From stdpp Require Import base gmap strings list.

Set Default Proof Using "Type".

(** ** Arrays: [sort] *)

Section JsSort.
Context {A : Type}.
Variable cmp : A -> A -> Q.

(** [x], met before [y], stays before it unless [cmp x y > 0]. *)
Definition stays_before (x y : A) : bool := Qle_bool (cmp x y) 0.

Fixpoint sort_insert (x : A) (l : list A) : list A :=
  match l with
  | [] => [x]
  | y :: l' => if stays_before x y then x :: l else y :: sort_insert x l'
  end.

Definition js_sort (l : list A) : list A := fold_right sort_insert [] l.

Lemma sort_insert_perm x l : Permutation (sort_insert x l) (x :: l).
Proof.
  induction l as [|y l IH]; simpl; [reflexivity|].
  destruct (stays_before x y); [reflexivity|].
  rewrite IH. apply perm_swap.
Qed.

Lemma js_sort_perm l : Permutation (js_sort l) l.
Proof.
  induction l as [|x l IH]; simpl; [constructor|].
  rewrite sort_insert_perm. now constructor.
Qed.

Lemma js_sort_nil_iff l : js_sort l = [] <-> l = [].
Proof.
  split; intros H.
  - apply Permutation_nil. rewrite <- H. apply js_sort_perm.
  - now subst.
Qed.

Section Sorted.
Variable R : A -> A -> Prop.
Hypothesis R_stays : forall x y, stays_before x y = true -> R x y.
Hypothesis R_moves : forall x y, stays_before x y = false -> R y x.
Hypothesis R_trans : forall x y z, R x y -> R y z -> R x z.

Lemma sort_insert_sorted x l :
  StronglySorted R l -> StronglySorted R (sort_insert x l).
Proof using R_stays R_moves R_trans.
  induction 1 as [|y l Hs IH Hall]; simpl.
  - repeat constructor.
  - destruct (stays_before x y) eqn:E.
    + constructor; [now constructor|].
      constructor; [now apply R_stays|].
      rewrite List.Forall_forall in Hall |- *.
      intros z Hz. eapply R_trans; [apply R_stays; exact E|now apply Hall].
    + constructor; [exact IH|].
      rewrite List.Forall_forall. intros z Hz.
      apply (Permutation_in _ (sort_insert_perm x l)) in Hz.
      destruct Hz as [<-|Hz]; [now apply R_moves|].
      rewrite List.Forall_forall in Hall. now apply Hall.
Qed.

Lemma js_sort_sorted l : StronglySorted R (js_sort l).
Proof using R_stays R_moves R_trans.
  induction l as [|x l IH]; simpl; [constructor|].
  now apply sort_insert_sorted.
Qed.
End Sorted.
End JsSort.

(** Sorting in descending order of a numeric key: the comparator
  [(a, b) => key(b) - key(a)]. *)
Section Descending.
Context {A : Type}.
Variable key : A -> Q.

Definition by_key_desc (a b : A) : Q := key b - key a.

Definition descending (a b : A) : Prop := (key b <= key a)%Q.

Lemma js_sort_descending l :
  StronglySorted descending (js_sort by_key_desc l).
Proof.
  apply js_sort_sorted; unfold stays_before, by_key_desc, descending.
  - intros x y H. apply Qle_bool_iff in H. lra.
  - intros x y H.
    destruct (Qlt_le_dec 0 (key y - key x)%Q) as [Hlt|Hle]; [lra|].
    apply Qle_bool_iff in Hle. congruence.
  - intros x y z Hxy Hyz. lra.
Qed.
End Descending.

(** ** The data records the components read

    Only the fields that the components under study touch are kept. *)

Record Assignment := { personId : string; commitment : Q }.

Record ObjectiveGroup := { groupType : string; groupName : string }.

Module Tag.
Record t := mk { name : string }.
End Tag.

Module Objective.
Record t := mk {
    name : string;
    groups : list ObjectiveGroup;
    tags : list Tag.t;
    assignments : list Assignment;
  }.
End Objective.

Module Bucket.
Record t := mk {
    displayName : string;
    allocationPercentage : Q;
    objectives : list Objective.t;
  }.
End Bucket.

Module Period.
Record t := mk { buckets : list Bucket.t }.
End Period.

Module Person.
Record t := mk { id : string; displayName : string; availability : Q }.
End Person.

(** Every objective of every bucket of a period, in document order. *)
Definition allObjectives (period : Period.t) : list Objective.t :=
  flat_map Bucket.objectives (Period.buckets period).

(** Two nested [forEach] loops that thread an accumulator visit the
    objectives in document order. *)
Lemma forEach_objectives {S : Type} (body : S -> Objective.t -> S) period s :
  fold_left (fun acc b => fold_left body (Bucket.objectives b) acc)
            (Period.buckets period) s
  = fold_left body (allObjectives period) s.
Proof.
  unfold allObjectives. revert s.
  induction (Period.buckets period) as [|b bs IH]; intros s; simpl; [reflexivity|].
  rewrite fold_left_app. apply IH.
Qed.

Lemma fold_left_ext_eq {S X : Type} (f g : S -> X -> S) (l : list X) (s : S) :
  (forall acc x, f acc x = g acc x) -> fold_left f l s = fold_left g l s.
Proof.
  intros E. revert s. induction l as [|x l IH]; intros s; simpl; [reflexivity|].
  now rewrite E, IH.
Qed.

(** A loop whose body only pushes onto the result array. *)
Lemma forEach_push {X Y : Type} (f : X -> list Y) (l : list X) (acc : list Y) :
  fold_left (fun acc x => acc ++ f x) l acc = acc ++ flat_map f l.
Proof.
  revert acc. induction l as [|x l IH]; intros acc; simpl.
  - now rewrite app_nil_r.
  - rewrite IH. now rewrite app_assoc.
Qed.

(** ** AssignmentsByPersonComponent *)

Module AssignmentsByPersonComponent.

Record ObjectiveAssignment := {
  objective : Objective.t;
  assignment : Assignment;
}.

Section Component.
Variable period : Period.t.

(** The three nested [for ... of] loops leave with [true] at the first
    assignment of the person, and with [false] when none is met. *)
Definition hasAssignments (person : Person.t) : bool :=
  existsb (fun bucket =>
    existsb (fun objective =>
      existsb (fun assignment =>
                 String.eqb (personId assignment) (Person.id person))
              (Objective.assignments objective))
            (Bucket.objectives bucket))
          (Period.buckets period).

(** [result] before it is sorted. *)
Definition collected (person : Person.t) : list ObjectiveAssignment :=
  fold_left (fun result bucket =>
    fold_left (fun result objective =>
      fold_left (fun result assignment =>
                   result ++ [{| objective := objective;
                                 assignment := assignment |}])
                (List.filter
                   (fun assignment =>
                      String.eqb (personId assignment) (Person.id person))
                   (Objective.assignments objective))
                result)
      (Bucket.objectives bucket) result)
    (Period.buckets period) [].

Definition assignmentsFor (person : Person.t) : list ObjectiveAssignment :=
  js_sort (fun a b => commitment (assignment b) - commitment (assignment a))%Q
          (collected person).

(** The pairs the description speaks of, written as a comprehension:
    every assignment of the person, paired with its objective. *)
Definition pairsOf (person : Person.t) : list ObjectiveAssignment :=
  flat_map (fun o =>
    map (fun a => {| objective := o; assignment := a |})
        (List.filter (fun a => String.eqb (personId a) (Person.id person))
                     (Objective.assignments o)))
    (allObjectives period).

Lemma collected_pairsOf person : collected person = pairsOf person.
Proof.
  unfold collected, pairsOf.
  rewrite (forEach_objectives
    (fun result objective =>
      fold_left (fun result assignment =>
                   result ++ [{| objective := objective;
                                 assignment := assignment |}])
                (List.filter
                   (fun assignment =>
                      String.eqb (personId assignment) (Person.id person))
                   (Objective.assignments objective))
                result)).
  rewrite (fold_left_ext_eq _
    (fun acc o => acc ++
       map (fun a => {| objective := o; assignment := a |})
         (List.filter (fun a => String.eqb (personId a) (Person.id person))
                      (Objective.assignments o)))).
  - now rewrite forEach_push.
  - intros acc o.
    rewrite (forEach_push (fun a => [{| objective := o; assignment := a |}])).
    apply (f_equal (app acc)). generalize (List.filter
      (fun a => String.eqb (personId a) (Person.id person))
      (Objective.assignments o)).
    intros l. induction l as [|a l IH]; simpl; congruence.
Qed.
End Component.

Lemma In_allObjectives period o :
  In o (allObjectives period) <->
  exists b, In b (Period.buckets period) /\ In o (Bucket.objectives b).
Proof. unfold allObjectives. apply in_flat_map. Qed.

Lemma In_pairsOf period person oa :
  In oa (pairsOf period person) <->
  In (objective oa) (allObjectives period)
  /\ In (assignment oa) (Objective.assignments (objective oa))
  /\ personId (assignment oa) = Person.id person.
Proof.
  unfold pairsOf. rewrite in_flat_map. split.
  - intros (o & Ho & Hin). apply in_map_iff in Hin as (a & <- & Ha).
    apply filter_In in Ha as [Ha E]. apply String.eqb_eq in E. simpl. auto.
  - intros (Ho & Ha & E). exists (objective oa). split; [exact Ho|].
    apply in_map_iff. exists (assignment oa). split; [now destruct oa|].
    apply filter_In. split; [exact Ha|]. now apply String.eqb_eq.
Qed.

(** C7: [assignmentsFor] returns exactly the (objective, assignment) pairs of
    the period whose assignment carries the person's id (the same pairs, each
    as many times as it occurs), sorted in descending order of the
    assignment's commitment. *)
Theorem assignmentsFor_exact_descending (period : Period.t) (person : Person.t) :
  Permutation (assignmentsFor period person) (pairsOf period person)
  /\ (forall oa, In oa (assignmentsFor period person) <->
        exists b, In b (Period.buckets period)
                  /\ In (objective oa) (Bucket.objectives b)
                  /\ In (assignment oa) (Objective.assignments (objective oa))
                  /\ personId (assignment oa) = Person.id person)
  /\ StronglySorted
       (fun x y => (commitment (assignment y) <= commitment (assignment x))%Q)
       (assignmentsFor period person).
Proof.
  assert (P : Permutation (assignmentsFor period person) (pairsOf period person)).
  { unfold assignmentsFor. rewrite js_sort_perm. now rewrite collected_pairsOf. }
  split; [exact P|]. split.
  - intros oa. split.
    + intros H. apply (Permutation_in _ P) in H.
      apply In_pairsOf in H as (Ho & Ha & E).
      apply In_allObjectives in Ho as (b & Hb & Ho). eauto.
    + intros (b & Hb & Ho & Ha & E).
      apply (Permutation_in _ (Permutation_sym P)).
      apply In_pairsOf. split; [|auto].
      apply In_allObjectives. eauto.
  - apply (js_sort_descending (fun oa => commitment (assignment oa))).
Qed.

(** C8: [hasAssignments person] is [true] exactly when [assignmentsFor person]
    is a non-empty list. *)
Theorem hasAssignments_iff_assignmentsFor_nonempty
    (period : Period.t) (person : Person.t) :
  hasAssignments period person = true <-> assignmentsFor period person <> [].
Proof.
  unfold assignmentsFor. rewrite js_sort_nil_iff, collected_pairsOf.
  unfold hasAssignments. rewrite existsb_exists. split.
  - intros (b & Hb & H). apply existsb_exists in H as (o & Ho & H).
    apply existsb_exists in H as (a & Ha & E). apply String.eqb_eq in E.
    intros Hnil.
    assert (Hin : In {| objective := o; assignment := a |} (pairsOf period person)).
    { apply In_pairsOf. simpl. split; [|auto]. apply In_allObjectives. eauto. }
    rewrite Hnil in Hin. exact Hin.
  - intros Hne. destruct (pairsOf period person) as [|oa l] eqn:E; [congruence|].
    assert (Hin : In oa (pairsOf period person)) by (rewrite E; now left).
    apply In_pairsOf in Hin as (Ho & Ha & Eid).
    apply In_allObjectives in Ho as (b & Hb & Ho).
    exists b. split; [exact Hb|]. apply existsb_exists.
    exists (objective oa). split; [exact Ho|]. apply existsb_exists.
    exists (assignment oa). split; [exact Ha|]. now apply String.eqb_eq.
Qed.

End AssignmentsByPersonComponent.

(** ** A [Map] that is iterated: entries in insertion order

    [set] on a key that is present replaces the value in place and keeps
    the entry's position; on a new key it appends an entry.  Keys are
    compared with [eqb] (string equality, or numeric equality for number
    keys). *)

Section OrderedMap.
Context {K V : Type}.
Variable eqb : K -> K -> bool.

Fixpoint om_get (k : K) (m : list (K * V)) : option V :=
  match m with
  | [] => None
  | (k', v) :: m' => if eqb k' k then Some v else om_get k m'
  end.

Definition om_has (k : K) (m : list (K * V)) : bool :=
  match om_get k m with Some _ => true | None => false end.

Fixpoint om_set (k : K) (v : V) (m : list (K * V)) : list (K * V) :=
  match m with
  | [] => [(k, v)]
  | (k', v') :: m' =>
      if eqb k' k then (k', v) :: m' else (k', v') :: om_set k v m'
  end.

(** No two entries have the same key. *)
Fixpoint om_wf (m : list (K * V)) : Prop :=
  match m with
  | [] => True
  | (k, _) :: m' => om_get k m' = None /\ om_wf m'
  end.

Hypothesis eqb_refl : forall k, eqb k k = true.
Hypothesis eqb_sym : forall k k', eqb k k' = eqb k' k.
Hypothesis eqb_trans :
  forall k1 k2 k3, eqb k1 k2 = true -> eqb k2 k3 = true -> eqb k1 k3 = true.

Lemma om_get_set k v m k' :
  om_get k' (om_set k v m) = if eqb k k' then Some v else om_get k' m.
Proof using eqb_refl eqb_sym eqb_trans.
  induction m as [|[k1 v1] m IH]; simpl; [reflexivity|].
  destruct (eqb k1 k) eqn:E1; simpl.
  - destruct (eqb k1 k') eqn:E2.
    + rewrite eqb_sym in E1. now rewrite (eqb_trans _ _ _ E1 E2).
    + destruct (eqb k k') eqn:E3; [|reflexivity].
      now rewrite (eqb_trans _ _ _ E1 E3) in E2.
  - destruct (eqb k1 k') eqn:E2; [|exact IH].
    destruct (eqb k k') eqn:E3; [|reflexivity].
    rewrite eqb_sym in E3. now rewrite (eqb_trans _ _ _ E2 E3) in E1.
Qed.

Lemma om_get_eqb k k' m : eqb k k' = true -> om_get k m = om_get k' m.
Proof using eqb_sym eqb_trans.
  intros E. induction m as [|[k1 v1] m IH]; simpl; [reflexivity|].
  destruct (eqb k1 k) eqn:E1.
  - now rewrite (eqb_trans _ _ _ E1 E).
  - destruct (eqb k1 k') eqn:E2; [|exact IH].
    rewrite eqb_sym in E. now rewrite (eqb_trans _ _ _ E2 E) in E1.
Qed.

Lemma om_get_In k v m :
  om_get k m = Some v -> exists k', eqb k' k = true /\ In (k', v) m.
Proof.
  induction m as [|[k1 v1] m IH]; simpl; [discriminate|].
  destruct (eqb k1 k) eqn:E.
  - intros [= <-]. eauto.
  - intros H. destruct (IH H) as (k' & ? & ?). eauto.
Qed.

Lemma om_In_get k v m : om_wf m -> In (k, v) m -> om_get k m = Some v.
Proof using eqb_refl eqb_sym eqb_trans.
  induction m as [|[k1 v1] m IH]; simpl; [tauto|].
  intros [Hfresh W] [[= -> ->]|Hin].
  - now rewrite eqb_refl.
  - specialize (IH W Hin). destruct (eqb k1 k) eqn:E; [|exact IH].
    rewrite (om_get_eqb _ _ _ E) in Hfresh. congruence.
Qed.

Lemma om_set_wf k v m : om_wf m -> om_wf (om_set k v m).
Proof using eqb_refl eqb_sym eqb_trans.
  induction m as [|[k1 v1] m IH]; simpl; [tauto|].
  intros [Hfresh W]. destruct (eqb k1 k) eqn:E; simpl; [tauto|].
  split; [|now apply IH].
  rewrite om_get_set. rewrite eqb_sym in E. now rewrite E.
Qed.

Lemma om_set_keys k v m :
  map fst (om_set k v m) =
  if om_has k m then map fst m else (map fst m ++ [k])%list.
Proof.
  unfold om_has. induction m as [|[k1 v1] m IH]; simpl; [reflexivity|].
  destruct (eqb k1 k); simpl; [reflexivity|].
  rewrite IH. now destruct (om_get k m).
Qed.

End OrderedMap.

Lemma string_eqb_trans (a b c : string) :
  String.eqb a b = true -> String.eqb b c = true -> String.eqb a c = true.
Proof. rewrite !String.eqb_eq. congruence. Qed.

(** The map lemmas at string keys. *)
Section StringKeys.
Context {V : Type}.

Lemma str_get_set k (v : V) m k' :
  om_get String.eqb k' (om_set String.eqb k v m) =
  if String.eqb k k' then Some v else om_get String.eqb k' m.
Proof.
  apply om_get_set;
    [exact String.eqb_refl | exact String.eqb_sym | exact string_eqb_trans].
Qed.

Lemma str_In_get k (v : V) m :
  om_wf String.eqb m -> In (k, v) m -> om_get String.eqb k m = Some v.
Proof.
  apply om_In_get;
    [exact String.eqb_refl | exact String.eqb_sym | exact string_eqb_trans].
Qed.

Lemma str_set_wf k (v : V) m :
  om_wf String.eqb m -> om_wf String.eqb (om_set String.eqb k v m).
Proof.
  apply om_set_wf;
    [exact String.eqb_refl | exact String.eqb_sym | exact string_eqb_trans].
Qed.

End StringKeys.

Lemma om_wf_NoDup {V : Type} (m : list (string * V)) :
  om_wf String.eqb m -> List.NoDup (map fst m).
Proof.
  induction m as [|[k v] m IH]; simpl; [constructor|].
  intros [Hfresh W]. constructor; [|now apply IH].
  intros Hin. apply in_map_iff in Hin as ([k' v'] & E & Hin). simpl in E. subst k'.
  rewrite (str_In_get _ _ _ W Hin) in Hfresh.
  discriminate.
Qed.

(** ** Grouping into a [Map<string, T[]>]

    [if (m.has(k)) { m.get(k)!.push(x); } else { m.set(k, [x]); }]
    The array pushed onto is the one the map holds, so the entry sees the
    new element; nothing else refers to it. *)

Section Grouping.
Context {X : Type}.

Definition om_push (k : string) (x : X) (m : list (string * list X))
  : list (string * list X) :=
  if om_has String.eqb k m then
    match om_get String.eqb k m with
    | Some xs => om_set String.eqb k (xs ++ [x]) m
    | None => m
    end
  else om_set String.eqb k [x] m.

Definition pushAll (kxs : list (string * X)) (m : list (string * list X))
  : list (string * list X) :=
  fold_left (fun m kx => om_push (fst kx) (snd kx) m) kxs m.

(** The values filed under [k], in the order they were met. *)
Definition filed (k : string) (kxs : list (string * X)) : list X :=
  map snd (List.filter (fun kx => String.eqb (fst kx) k) kxs).

Definition grouped (m : list (string * list X)) (kxs : list (string * X)) : Prop :=
  om_wf String.eqb m
  /\ forall k, om_get String.eqb k m =
               match filed k kxs with [] => None | xs => Some xs end.

Lemma filed_snoc k kxs k' x :
  filed k (kxs ++ [(k', x)]) =
  (filed k kxs ++ if String.eqb k' k then [x] else [])%list.
Proof.
  unfold filed. rewrite List.filter_app, map_app. simpl.
  now destruct (String.eqb k' k).
Qed.

Lemma om_push_grouped m kxs k x :
  grouped m kxs -> grouped (om_push k x m) (kxs ++ [(k, x)]).
Proof.
  intros [W G]. unfold om_push, om_has.
  pose proof (G k) as Gk.
  destruct (om_get String.eqb k m) as [xs|] eqn:E.
  - split.
    + now apply str_set_wf.
    + intros k'. rewrite filed_snoc.
      rewrite str_get_set.
      destruct (String.eqb k k') eqn:Ek.
      * apply String.eqb_eq in Ek. subst k'.
        destruct (filed k kxs) as [|y ys]; [discriminate|].
        injection Gk as ->. reflexivity.
      * rewrite G, app_nil_r. reflexivity.
  - split.
    + now apply str_set_wf.
    + intros k'. rewrite filed_snoc.
      rewrite str_get_set.
      destruct (String.eqb k k') eqn:Ek.
      * apply String.eqb_eq in Ek. subst k'.
        destruct (filed k kxs) as [|y ys]; [reflexivity|discriminate].
      * rewrite G, app_nil_r. reflexivity.
Qed.

Lemma pushAll_grouped_from kxs : forall m pre,
  grouped m pre -> grouped (pushAll kxs m) (pre ++ kxs).
Proof.
  induction kxs as [|[k x] kxs IH]; intros m pre G; simpl.
  - now rewrite app_nil_r.
  - replace (pre ++ (k, x) :: kxs)%list with ((pre ++ [(k, x)]) ++ kxs)%list
      by now rewrite <- app_assoc.
    apply IH. now apply om_push_grouped.
Qed.

Lemma pushAll_grouped kxs : grouped (pushAll kxs []) kxs.
Proof.
  apply (pushAll_grouped_from kxs [] []). split; simpl; auto.
Qed.

(** What the finished map holds. *)
Lemma pushAll_entries kxs :
  List.NoDup (map fst (pushAll kxs []))
  /\ (forall k xs, In (k, xs) (pushAll kxs []) -> xs = filed k kxs /\ xs <> [])
  /\ (forall k, filed k kxs <> [] -> In (k, filed k kxs) (pushAll kxs [])).
Proof.
  destruct (pushAll_grouped kxs) as [W G]. split; [now apply om_wf_NoDup|]. split.
  - intros k xs Hin.
    apply (str_In_get _ _ _ W) in Hin.
    rewrite G in Hin. destruct (filed k kxs); [discriminate|].
    injection Hin as <-. split; [reflexivity|discriminate].
  - intros k Hne. specialize (G k).
    destruct (filed k kxs) as [|y ys] eqn:E; [congruence|].
    apply om_get_In in G as (k' & Ek & Hin).
    apply String.eqb_eq in Ek. now subst k'.
Qed.

(** A loop over items, each filed under some keys, is [pushAll] on the
    (key, item) pairs in order. *)
Lemma forEach_pushAll {Y : Type} (keys : Y -> list (string * X)) (l : list Y) m :
  fold_left (fun m y => pushAll (keys y) m) l m = pushAll (flat_map keys l) m.
Proof.
  revert m. induction l as [|y l IH]; intros m; simpl; [reflexivity|].
  rewrite IH. unfold pushAll. now rewrite fold_left_app.
Qed.

End Grouping.

(** [find] returns the first element that passes the test, which is also
    the head of [filter]. *)
Lemma find_first {A : Type} (f : A -> bool) (l : list A) (x : A) :
  List.find f l = Some x <->
  exists l1 l2, l = (l1 ++ x :: l2)%list /\ f x = true
                /\ forall y, In y l1 -> f y = false.
Proof.
  induction l as [|a l IH]; simpl.
  - split; [discriminate|]. intros (l1 & l2 & E & _). now destruct l1.
  - destruct (f a) eqn:Fa.
    + split.
      * intros [= <-]. exists [], l. simpl. tauto.
      * intros (l1 & l2 & E & Fx & Hl1). destruct l1 as [|b l1]; simpl in E.
        -- now injection E as -> _.
        -- injection E as <- _. rewrite (Hl1 a) in Fa; [discriminate|now left].
    + rewrite IH. split.
      * intros (l1 & l2 & -> & Fx & Hl1). exists (a :: l1), l2. simpl.
        split; [reflexivity|]. split; [exact Fx|].
        intros y [<-|Hy]; auto.
      * intros (l1 & l2 & E & Fx & Hl1). destruct l1 as [|b l1]; simpl in E.
        -- injection E as -> _. congruence.
        -- injection E as <- ->. exists l1, l2. split; [reflexivity|].
           split; [exact Fx|]. intros y Hy. apply Hl1. now right.
Qed.

Lemma filter_head_find {A : Type} (f : A -> bool) (l : list A) :
  match List.filter f l with [] => None | x :: _ => Some x end = List.find f l.
Proof.
  induction l as [|a l IH]; simpl; [reflexivity|]. now destruct (f a).
Qed.

Lemma fold_left_map_eq {S X Y : Type} (f : S -> Y -> S) (g : X -> Y) l s :
  fold_left f (map g l) s = fold_left (fun s x => f s (g x)) l s.
Proof. revert s. induction l as [|x l IH]; intros s; simpl; auto. Qed.

(** ** AssignmentsClassifyComponent *)

Module AssignmentsClassifyComponent.

Section Component.
(** [ImmutableObjective.resourcesAllocated()] and [totalResourcesAllocated]
    are imported from [../objective]; [localeCompare] is the collation of
    the JavaScript runtime.  The component is studied for any of them. *)
Variable resourcesAllocated : Objective.t -> Q.
Variable totalResourcesAllocated : list Objective.t -> Q.
Variable localeCompare : string -> string -> Z.

(** The inputs [period] and [groupType]; the latter may be left undefined. *)
Variable period : Period.t.
Variable this_groupType : option string.

Definition totalAssignedResources (objectives : list Objective.t) : Q :=
  totalResourcesAllocated objectives.

(** [g.groupType === this.groupType] *)
Definition isOfGroupType (g : ObjectiveGroup) : bool :=
  match this_groupType with
  | Some t => String.eqb (groupType g) t
  | None => false
  end.

(** The body of the inner [forEach] of [objectivesByGroup]:
    [mgs.length > 0] is the second branch, [mgs[0]] its head. *)
Definition fileByGroup (obsByGroup : list (string * list Objective.t))
    (o : Objective.t) : list (string * list Objective.t) :=
  let mgs := List.filter isOfGroupType (Objective.groups o) in
  match mgs with
  | [] => obsByGroup
  | g0 :: _ => om_push (groupName g0) o obsByGroup
  end.

(** [for (const [_g, obs] of m) { obs.sort(...) }]: each array is sorted in
    place, in descending order of [resourcesAllocated()]. *)
Definition sortEach (m : list (string * list Objective.t))
  : list (string * list Objective.t) :=
  map (fun e =>
         (fst e,
          js_sort (fun o1 o2 => resourcesAllocated o2 - resourcesAllocated o1)%Q
                  (snd e)))
      m.

(** [resources2 - resources1 || g1.localeCompare(g2)] *)
Definition compareGroups (e1 e2 : string * list Objective.t) : Q :=
  let resources1 := totalAssignedResources (snd e1) in
  let resources2 := totalAssignedResources (snd e2) in
  let d := (resources2 - resources1)%Q in
  if Qeq_bool d 0 then inject_Z (localeCompare (fst e1) (fst e2)) else d.

Definition objectivesByGroup : list (string * list Objective.t) :=
  let obsByGroup :=
    fold_left (fun m b => fold_left fileByGroup (Bucket.objectives b) m)
              (Period.buckets period) [] in
  js_sort compareGroups (sortEach obsByGroup).

(** The body of the inner [forEach] of [objectivesByTag]. *)
Definition fileByTags (obsByTag : list (string * list Objective.t))
    (o : Objective.t) : list (string * list Objective.t) :=
  fold_left (fun m t => om_push (Tag.name t) o m) (Objective.tags o) obsByTag.

Definition compareTags (e1 e2 : string * list Objective.t) : Q :=
  inject_Z (localeCompare (fst e1) (fst e2)).

Definition objectivesByTag : list (string * list Objective.t) :=
  let obsByTag :=
    fold_left (fun m b => fold_left fileByTags (Bucket.objectives b) m)
              (Period.buckets period) [] in
  js_sort compareTags (sortEach obsByTag).

(** *** The words of the description *)

(** [o] is placed under [g]: [g] is the group name of the first group of
    [o] whose type is the component's. *)
Definition placedUnder (o : Objective.t) (g : string) : Prop :=
  exists l1 g0 l2,
    Objective.groups o = (l1 ++ g0 :: l2)%list
    /\ (forall g', In g' l1 -> Some (groupType g') <> this_groupType)
    /\ Some (groupType g0) = this_groupType
    /\ groupName g0 = g.

Definition placedUnderb (g : string) (o : Objective.t) : bool :=
  match List.find isOfGroupType (Objective.groups o) with
  | Some g0 => String.eqb (groupName g0) g
  | None => false
  end.

(** [o] carries a tag named [t]. *)
Definition taggedWith (o : Objective.t) (t : string) : Prop :=
  exists tg, In tg (Objective.tags o) /\ Tag.name tg = t.

(** [o], once for each of its tags named [t]. *)
Definition copiesFor (t : string) (o : Objective.t) : list Objective.t :=
  map (fun _ => o)
      (List.filter (fun tg => String.eqb (Tag.name tg) t) (Objective.tags o)).

(** Descending order of total resources, then ascending order of name. *)
Definition groupOrder (e1 e2 : string * list Objective.t) : Prop :=
  (totalAssignedResources (snd e2) < totalAssignedResources (snd e1))%Q
  \/ ((totalAssignedResources (snd e1) == totalAssignedResources (snd e2))%Q
      /\ (localeCompare (fst e1) (fst e2) <= 0)%Z).

Definition tagOrder (e1 e2 : string * list Objective.t) : Prop :=
  (localeCompare (fst e1) (fst e2) <= 0)%Z.

(** *** Both loops are groupings of (key, objective) pairs *)

Definition groupPairs (o : Objective.t) : list (string * Objective.t) :=
  match List.find isOfGroupType (Objective.groups o) with
  | Some g0 => [(groupName g0, o)]
  | None => []
  end.

Definition tagPairs (o : Objective.t) : list (string * Objective.t) :=
  map (fun t => (Tag.name t, o)) (Objective.tags o).

Lemma isOfGroupType_iff g :
  isOfGroupType g = true <-> Some (groupType g) = this_groupType.
Proof.
  unfold isOfGroupType. destruct this_groupType as [t|].
  - rewrite String.eqb_eq. split; congruence.
  - split; discriminate.
Qed.

Lemma placedUnderb_iff g o : placedUnderb g o = true <-> placedUnder o g.
Proof.
  unfold placedUnderb, placedUnder.
  destruct (List.find isOfGroupType (Objective.groups o)) as [g0|] eqn:F.
  - rewrite String.eqb_eq.
    apply find_first in F as (l1 & l2 & E & F0 & Hl1). split.
    + intros <-. exists l1, g0, l2. split; [exact E|].
      split; [|split; [now apply isOfGroupType_iff|reflexivity]].
      intros g' Hg' Eg'. apply isOfGroupType_iff in Eg'.
      rewrite (Hl1 _ Hg') in Eg'. discriminate.
    + intros (l1' & g1 & l2' & E' & Hl1' & Eg1 & <-).
      assert (F1 : List.find isOfGroupType (Objective.groups o) = Some g1).
      { apply find_first. exists l1', l2'. split; [exact E'|].
        split; [now apply isOfGroupType_iff|].
        intros y Hy. destruct (isOfGroupType y) eqn:Fy; [|reflexivity].
        apply isOfGroupType_iff in Fy. now apply Hl1' in Hy. }
      assert (F0' : List.find isOfGroupType (Objective.groups o) = Some g0).
      { apply find_first. eauto. }
      congruence.
  - split; [discriminate|].
    intros (l1 & g0 & l2 & E & Hl1 & Eg0 & _).
    assert (F1 : List.find isOfGroupType (Objective.groups o) = Some g0).
    { apply find_first. exists l1, l2. split; [exact E|].
      split; [now apply isOfGroupType_iff|].
      intros y Hy. destruct (isOfGroupType y) eqn:Fy; [|reflexivity].
      apply isOfGroupType_iff in Fy. now apply Hl1 in Hy. }
    congruence.
Qed.

Lemma fileByGroup_pushAll m o : fileByGroup m o = pushAll (groupPairs o) m.
Proof.
  unfold fileByGroup, groupPairs. rewrite <- filter_head_find.
  now destruct (List.filter isOfGroupType (Objective.groups o)).
Qed.

Lemma fileByTags_pushAll m o : fileByTags m o = pushAll (tagPairs o) m.
Proof.
  unfold fileByTags, tagPairs, pushAll. now rewrite fold_left_map_eq.
Qed.

Lemma obsByGroup_pushAll :
  fold_left (fun m b => fold_left fileByGroup (Bucket.objectives b) m)
            (Period.buckets period) []
  = pushAll (flat_map groupPairs (allObjectives period)) [].
Proof.
  rewrite (forEach_objectives fileByGroup).
  rewrite (fold_left_ext_eq _ (fun m o => pushAll (groupPairs o) m))
    by apply fileByGroup_pushAll.
  apply forEach_pushAll.
Qed.

Lemma obsByTag_pushAll :
  fold_left (fun m b => fold_left fileByTags (Bucket.objectives b) m)
            (Period.buckets period) []
  = pushAll (flat_map tagPairs (allObjectives period)) [].
Proof.
  rewrite (forEach_objectives fileByTags).
  rewrite (fold_left_ext_eq _ (fun m o => pushAll (tagPairs o) m))
    by apply fileByTags_pushAll.
  apply forEach_pushAll.
Qed.

Lemma filed_groupPairs g objs :
  filed g (flat_map groupPairs objs) = List.filter (placedUnderb g) objs.
Proof.
  unfold filed. induction objs as [|o objs IH]; simpl; [reflexivity|].
  rewrite List.filter_app, map_app, IH.
  unfold groupPairs, placedUnderb.
  destruct (List.find isOfGroupType (Objective.groups o)) as [g0|]; simpl;
    [|reflexivity].
  now destruct (String.eqb (groupName g0) g).
Qed.

Lemma filed_tagPairs t objs :
  filed t (flat_map tagPairs objs) = flat_map (copiesFor t) objs.
Proof.
  unfold filed. induction objs as [|o objs IH]; simpl; [reflexivity|].
  rewrite List.filter_app, map_app, IH. f_equal.
  unfold tagPairs, copiesFor.
  induction (Objective.tags o) as [|tg tgs IHt]; simpl; [reflexivity|].
  destruct (String.eqb (Tag.name tg) t); simpl; now rewrite IHt.
Qed.

Lemma In_copiesFor t o o' : In o' (copiesFor t o) <-> o' = o /\ taggedWith o t.
Proof.
  unfold copiesFor, taggedWith. rewrite in_map_iff. split.
  - intros (tg & <- & Hin). apply filter_In in Hin as [Hin E].
    apply String.eqb_eq in E. eauto.
  - intros (-> & tg & Hin & E). exists tg. split; [reflexivity|].
    apply filter_In. split; [exact Hin|]. now apply String.eqb_eq.
Qed.

Lemma sortEach_keys m : map fst (sortEach m) = map fst m.
Proof. unfold sortEach. rewrite map_map. reflexivity. Qed.

Lemma In_sortEach k obs m :
  In (k, obs) (sortEach m) <->
  exists obs0, In (k, obs0) m
    /\ obs = js_sort (fun o1 o2 => resourcesAllocated o2 - resourcesAllocated o1)%Q
                     obs0.
Proof.
  unfold sortEach. rewrite in_map_iff. split.
  - intros ([k0 obs0] & [= <- <-] & Hin). eauto.
  - intros (obs0 & Hin & ->). now exists (k, obs0).
Qed.

(** What either function returns, for the pairs [kxs] its loops file and the
    comparator [cmp] of its final sort. *)
Lemma classified_entries (cmp : string * list Objective.t ->
                                string * list Objective.t -> Q)
    (kxs : list (string * Objective.t)) :
  let result := js_sort cmp (sortEach (pushAll kxs [])) in
  List.NoDup (map fst result)
  /\ (forall k, In k (map fst result) <-> filed k kxs <> [])
  /\ (forall k obs, In (k, obs) result ->
        Permutation obs (filed k kxs)
        /\ StronglySorted (descending resourcesAllocated) obs).
Proof.
  intros result.
  destruct (pushAll_entries kxs) as (ND & Hin & Hall).
  assert (P : Permutation result (sortEach (pushAll kxs []))) by apply js_sort_perm.
  assert (PK : Permutation (map fst result) (map fst (pushAll kxs []))).
  { rewrite <- (sortEach_keys (pushAll kxs [])). now apply Permutation_map. }
  split; [|split].
  - eapply Permutation_NoDup; [symmetry; exact PK|exact ND].
  - intros k. split.
    + intros Hk. apply (Permutation_in _ PK) in Hk.
      apply in_map_iff in Hk as ([k' xs] & E & Hk). simpl in E. subst k'.
      destruct (Hin _ _ Hk) as [-> Hne]. exact Hne.
    + intros Hne. apply (Permutation_in _ (Permutation_sym PK)).
      apply in_map_iff. exists (k, filed k kxs). split; [reflexivity|].
      now apply Hall.
  - intros k obs Hk. apply (Permutation_in _ P) in Hk.
    apply In_sortEach in Hk as (obs0 & Hk & ->).
    destruct (Hin _ _ Hk) as [-> _]. split.
    + apply js_sort_perm.
    + apply (js_sort_descending resourcesAllocated).
Qed.

End Component.

Lemma groupOrder_sorted total localeCompare
    (cmp_total : forall a b, (localeCompare a b <= 0)%Z \/ (localeCompare b a <= 0)%Z)
    (cmp_trans : forall a b c, (localeCompare a b <= 0)%Z ->
                               (localeCompare b c <= 0)%Z ->
                               (localeCompare a c <= 0)%Z)
    (l : list (string * list Objective.t)) :
  StronglySorted (groupOrder total localeCompare)
                 (js_sort (compareGroups total localeCompare) l).
Proof.
  apply js_sort_sorted;
    unfold stays_before, compareGroups, groupOrder, totalAssignedResources.
  - intros [g1 obs1] [g2 obs2]; simpl.
    destruct (Qeq_bool (total obs2 - total obs1) 0) eqn:E; intros H;
      apply Qle_bool_iff in H.
    + apply Qeq_bool_iff in E. right. split; [lra|].
      rewrite Zle_Qle. exact H.
    + apply Qeq_bool_neq in E. left. lra.
  - intros [g1 obs1] [g2 obs2]; simpl.
    destruct (Qeq_bool (total obs2 - total obs1) 0) eqn:E; intros H.
    + apply Qeq_bool_iff in E. right. split; [lra|].
      destruct (cmp_total g2 g1) as [Hle|Hle]; [exact Hle|].
      rewrite Zle_Qle in Hle. apply Qle_bool_iff in Hle.
      change (inject_Z 0) with 0%Q in Hle. congruence.
    + apply Qeq_bool_neq in E. left.
      destruct (Qlt_le_dec 0 (total obs2 - total obs1)%Q) as [Hlt|Hle]; [lra|].
      apply Qle_bool_iff in Hle. congruence.
  - intros [g1 obs1] [g2 obs2] [g3 obs3]; simpl.
    intros [H12|[E12 L12]] [H23|[E23 L23]]; try (left; lra).
    right. split; [lra|]. eapply cmp_trans; eauto.
Qed.

Lemma tagOrder_sorted localeCompare
    (cmp_total : forall a b, (localeCompare a b <= 0)%Z \/ (localeCompare b a <= 0)%Z)
    (cmp_trans : forall a b c, (localeCompare a b <= 0)%Z ->
                               (localeCompare b c <= 0)%Z ->
                               (localeCompare a c <= 0)%Z)
    (l : list (string * list Objective.t)) :
  StronglySorted (tagOrder localeCompare) (js_sort (compareTags localeCompare) l).
Proof.
  apply js_sort_sorted; unfold stays_before, compareTags, tagOrder.
  - intros [g1 obs1] [g2 obs2]; simpl. intros H.
    apply Qle_bool_iff in H. rewrite Zle_Qle. exact H.
  - intros [g1 obs1] [g2 obs2]; simpl. intros H.
    destruct (cmp_total g2 g1) as [Hle|Hle]; [exact Hle|].
    rewrite Zle_Qle in Hle. apply Qle_bool_iff in Hle.
    change (inject_Z 0) with 0%Q in Hle. congruence.
  - intros [g1 obs1] [g2 obs2] [g3 obs3]; simpl. apply cmp_trans.
Qed.

(** C1: for every period and group type, [objectivesByGroup] returns one
    entry per group name; the names are those under which some objective is
    placed, an objective being placed under the group name of its first
    group of the component's type; the entry of a name holds exactly the
    objectives placed under it (so an objective with no group of that type
    is in no entry), sorted in descending order of [resourcesAllocated()];
    and the entries are sorted in descending order of total assigned
    resources, ties in ascending order of group name.  The collation
    [localeCompare] is taken to order names consistently. *)
Theorem objectivesByGroup_grouped_and_sorted
    (resourcesAllocated : Objective.t -> Q)
    (totalResourcesAllocated : list Objective.t -> Q)
    (localeCompare : string -> string -> Z)
    (period : Period.t) (this_groupType : option string)
    (localeCompare_total :
       forall a b, (localeCompare a b <= 0)%Z \/ (localeCompare b a <= 0)%Z)
    (localeCompare_trans :
       forall a b c, (localeCompare a b <= 0)%Z -> (localeCompare b c <= 0)%Z ->
                     (localeCompare a c <= 0)%Z) :
  let result := objectivesByGroup resourcesAllocated totalResourcesAllocated
                                  localeCompare period this_groupType in
  List.NoDup (map fst result)
  /\ (forall g, In g (map fst result) <->
                exists o, In o (allObjectives period)
                          /\ placedUnder this_groupType o g)
  /\ (forall g obs, In (g, obs) result ->
        Permutation obs (List.filter (placedUnderb this_groupType g)
                                     (allObjectives period))
        /\ (forall o, In o obs <->
                      In o (allObjectives period)
                      /\ placedUnder this_groupType o g)
        /\ StronglySorted (descending resourcesAllocated) obs)
  /\ StronglySorted (groupOrder totalResourcesAllocated localeCompare) result.
Proof.
  unfold objectivesByGroup. cbv zeta. rewrite obsByGroup_pushAll.
  pose proof (classified_entries resourcesAllocated
                (compareGroups totalResourcesAllocated localeCompare)
                (flat_map (groupPairs this_groupType) (allObjectives period)))
    as CE.
  cbv zeta in CE. destruct CE as (ND & Hkeys & Hentries).
  set (result := js_sort _ _) in *.
  assert (Hmem : forall g o,
            In o (List.filter (placedUnderb this_groupType g) (allObjectives period))
            <-> In o (allObjectives period) /\ placedUnder this_groupType o g).
  { intros g o. rewrite filter_In, placedUnderb_iff. reflexivity. }
  split; [exact ND|]. split; [|split].
  - intros g. rewrite Hkeys, filed_groupPairs. split.
    + intros Hne.
      destruct (List.filter (placedUnderb this_groupType g) (allObjectives period))
        as [|o l] eqn:E; [congruence|].
      exists o. apply Hmem. rewrite E. now left.
    + intros (o & Ho) Hnil. apply Hmem in Ho. rewrite Hnil in Ho. exact Ho.
  - intros g obs Hin. destruct (Hentries _ _ Hin) as [P S].
    rewrite filed_groupPairs in P. split; [exact P|]. split; [|exact S].
    intros o. rewrite <- Hmem. split; apply Permutation_in; [|symmetry]; exact P.
  - now apply groupOrder_sorted.
Qed.

(** C2: for every period, [objectivesByTag] returns one entry per tag name;
    the names are those of the tags that some objective carries; the entry
    of a name holds every objective that carries a tag of that name (once
    per such tag) and nothing else, so an objective without tags is in no
    entry; each entry is sorted in descending order of
    [resourcesAllocated()], and the entries are sorted in ascending order of
    tag name.  The collation [localeCompare] is taken to order names
    consistently. *)
Theorem objectivesByTag_grouped_and_sorted
    (resourcesAllocated : Objective.t -> Q)
    (localeCompare : string -> string -> Z)
    (period : Period.t)
    (localeCompare_total :
       forall a b, (localeCompare a b <= 0)%Z \/ (localeCompare b a <= 0)%Z)
    (localeCompare_trans :
       forall a b c, (localeCompare a b <= 0)%Z -> (localeCompare b c <= 0)%Z ->
                     (localeCompare a c <= 0)%Z) :
  let result := objectivesByTag resourcesAllocated localeCompare period in
  List.NoDup (map fst result)
  /\ (forall t, In t (map fst result) <->
                exists o, In o (allObjectives period) /\ taggedWith o t)
  /\ (forall o tg, In o (allObjectives period) -> In tg (Objective.tags o) ->
        exists obs, In (Tag.name tg, obs) result /\ In o obs)
  /\ (forall t obs, In (t, obs) result ->
        Permutation obs (flat_map (copiesFor t) (allObjectives period))
        /\ (forall o, In o obs <-> In o (allObjectives period) /\ taggedWith o t)
        /\ StronglySorted (descending resourcesAllocated) obs)
  /\ StronglySorted (tagOrder localeCompare) result.
Proof.
  unfold objectivesByTag. cbv zeta. rewrite obsByTag_pushAll.
  pose proof (classified_entries resourcesAllocated (compareTags localeCompare)
                (flat_map tagPairs (allObjectives period)))
    as CE.
  cbv zeta in CE. destruct CE as (ND & Hkeys & Hentries).
  set (result := js_sort _ _) in *.
  assert (Hmem : forall t o,
            In o (flat_map (copiesFor t) (allObjectives period))
            <-> In o (allObjectives period) /\ taggedWith o t).
  { intros t o. rewrite in_flat_map. split.
    - intros (o' & Ho' & Hin). apply In_copiesFor in Hin as [-> T]. auto.
    - intros [Ho T]. exists o. split; [exact Ho|]. now apply In_copiesFor. }
  assert (Hk : forall t, In t (map fst result) <->
                 exists o, In o (allObjectives period) /\ taggedWith o t).
  { intros t. rewrite Hkeys, filed_tagPairs. split.
    - intros Hne.
      destruct (flat_map (copiesFor t) (allObjectives period)) as [|o l] eqn:E;
        [congruence|].
      exists o. apply Hmem. rewrite E. now left.
    - intros (o & Ho) Hnil. apply Hmem in Ho. rewrite Hnil in Ho. exact Ho. }
  assert (He : forall t obs, In (t, obs) result ->
        Permutation obs (flat_map (copiesFor t) (allObjectives period))
        /\ (forall o, In o obs <-> In o (allObjectives period) /\ taggedWith o t)
        /\ StronglySorted (descending resourcesAllocated) obs).
  { intros t obs Hin. destruct (Hentries _ _ Hin) as [P S].
    rewrite filed_tagPairs in P. split; [exact P|]. split; [|exact S].
    intros o. rewrite <- Hmem. split; apply Permutation_in; [|symmetry]; exact P. }
  split; [exact ND|]. split; [exact Hk|]. split; [|split; [exact He|]].
  - intros o tg Ho Htg.
    assert (T : taggedWith o (Tag.name tg)) by (exists tg; auto).
    assert (Hin : In (Tag.name tg) (map fst result)) by (apply Hk; eauto).
    apply in_map_iff in Hin as ([t obs] & E & Hin). simpl in E. subst t.
    exists obs. split; [exact Hin|]. apply (He _ _ Hin). auto.
  - now apply tagOrder_sorted.
Qed.

End AssignmentsClassifyComponent.

(** ** PeopleComponent *)

(** [a > b] on numbers. *)
Definition Qgtb (a b : Q) : bool := negb (Qle_bool a b).

(** The value under a non-null assertion [e!]; it is only applied where the
    value is present. *)
Definition nonNull {A : Type} (d : A) (o : option A) : A :=
  match o with Some v => v | None => d end.

(** [ReadonlyMap.has] *)
Definition rm_has {V : Type} (m : gmap string V) (k : string) : bool :=
  match m !! k with Some _ => true | None => false end.

(** The map lemmas at number keys. *)
Section NumberKeys.
Context {V : Type}.

Lemma num_get_set k (v : V) m k' :
  om_get Qeq_bool k' (om_set Qeq_bool k v m) =
  if Qeq_bool k k' then Some v else om_get Qeq_bool k' m.
Proof.
  apply om_get_set;
    [exact Qeq_bool_refl | exact Qeq_bool_comm | exact Qeq_bool_trans].
Qed.

Lemma num_In_get k (v : V) m :
  om_wf Qeq_bool m -> In (k, v) m -> om_get Qeq_bool k m = Some v.
Proof.
  apply om_In_get;
    [exact Qeq_bool_refl | exact Qeq_bool_comm | exact Qeq_bool_trans].
Qed.

Lemma num_set_wf k (v : V) m :
  om_wf Qeq_bool m -> om_wf Qeq_bool (om_set Qeq_bool k v m).
Proof.
  apply om_set_wf;
    [exact Qeq_bool_refl | exact Qeq_bool_comm | exact Qeq_bool_trans].
Qed.

End NumberKeys.

(** Occurrences of a number in a list, and the distinct numbers of a list
    in order of first appearance. *)
Definition occurrences (a : Q) (l : list Q) : nat :=
  List.length (List.filter (fun b => Qeq_bool b a) l).

Fixpoint firstAppearances (l : list Q) : list Q :=
  match l with
  | [] => []
  | a :: l' =>
      a :: List.filter (fun b => negb (Qeq_bool a b)) (firstAppearances l')
  end.

Lemma occurrences_snoc a l b :
  occurrences a (l ++ [b]) =
  (occurrences a l + if Qeq_bool b a then 1 else 0)%nat.
Proof.
  unfold occurrences. rewrite List.filter_app, length_app. simpl.
  now destruct (Qeq_bool b a).
Qed.

Lemma occurrences_Qeq a a' l :
  Qeq_bool a a' = true -> occurrences a l = occurrences a' l.
Proof.
  intros E. unfold occurrences. f_equal. apply filter_ext. intros b.
  destruct (Qeq_bool b a) eqn:E1, (Qeq_bool b a') eqn:E2; try reflexivity.
  - now rewrite (Qeq_bool_trans _ _ _ E1 E) in E2.
  - apply Qeq_bool_sym in E. now rewrite (Qeq_bool_trans _ _ _ E2 E) in E1.
Qed.

Lemma occurrences_In a l : In a l -> (0 < occurrences a l)%nat.
Proof.
  unfold occurrences. induction l as [|b l IH]; simpl; [tauto|].
  intros [->|Hin].
  - rewrite Qeq_bool_refl. simpl. lia.
  - destruct (Qeq_bool b a); simpl; [lia|auto].
Qed.

Lemma firstAppearances_snoc l a :
  firstAppearances (l ++ [a]) =
  if (occurrences a l =? 0)%nat then (firstAppearances l ++ [a])%list
  else firstAppearances l.
Proof.
  induction l as [|b l IH]; simpl; [reflexivity|].
  rewrite IH.
  assert (O : occurrences a (b :: l) =
              ((if Qeq_bool b a then 1 else 0) + occurrences a l)%nat).
  { unfold occurrences. simpl. now destruct (Qeq_bool b a). }
  rewrite O.
  destruct (occurrences a l) as [|n]; destruct (Qeq_bool b a) eqn:E; simpl;
    try reflexivity.
  - rewrite List.filter_app. simpl. rewrite E. simpl. now rewrite app_nil_r.
  - rewrite List.filter_app. simpl. rewrite E. reflexivity.
Qed.

Lemma filter_split {A : Type} (f : A -> bool) (l : list A) k1 x k2 :
  List.filter f l = (k1 ++ x :: k2)%list ->
  exists l1 l2, l = (l1 ++ x :: l2)%list /\ List.filter f l1 = k1.
Proof.
  revert k1. induction l as [|a l IH]; intros k1; simpl.
  - intros E. now destruct k1.
  - destruct (f a) eqn:Fa.
    + destruct k1 as [|b k1]; simpl; intros [= -> E].
      * exists [], l. auto.
      * destruct (IH _ E) as (l1 & l2 & -> & <-).
        exists (b :: l1), l2. simpl. now rewrite Fa.
    + intros E. destruct (IH _ E) as (l1 & l2 & -> & <-).
      exists (a :: l1), l2. simpl. now rewrite Fa.
Qed.

(** A number listed among the first appearances stands in the list, and
    whatever stands before it there equals a number listed before it. *)
Lemma firstAppearances_split l : forall k1 x k2,
  firstAppearances l = (k1 ++ x :: k2)%list ->
  exists l1 l2, l = (l1 ++ x :: l2)%list
    /\ forall y, In y l1 -> exists z, In z k1 /\ Qeq_bool y z = true.
Proof.
  induction l as [|a l IH]; intros k1 x k2; simpl.
  - intros E. now destruct k1.
  - destruct k1 as [|b k1]; simpl; intros [= -> E].
    + exists [], l. split; [reflexivity|]. intros y [].
    + apply filter_split in E as (L1 & L2 & E & <-).
      destruct (IH _ _ _ E) as (l1 & l2 & -> & Hl1).
      exists (b :: l1), l2. split; [reflexivity|].
      intros y [<-|Hy].
      * exists b. split; [now left|apply Qeq_bool_refl].
      * destruct (Hl1 _ Hy) as (z & Hz & Eyz).
        destruct (Qeq_bool b z) eqn:Ebz.
        -- exists b. split; [now left|].
           apply Qeq_bool_sym in Ebz. eapply Qeq_bool_trans; eauto.
        -- exists z. split; [|exact Eyz]. right.
           apply filter_In. split; [exact Hz|]. now rewrite Ebz.
Qed.

Module PeopleComponent.

Section Component.
Variable people : list Person.t.
Variable peopleAllocations : gmap string Q.
Variable peopleCommittedAllocations : gmap string Q.

Definition personAllocated (person : Person.t) : Q :=
  if rm_has peopleAllocations (Person.id person)
  then nonNull 0%Q (peopleAllocations !! Person.id person)
  else 0%Q.

Definition personUnallocated (person : Person.t) : Q :=
  (Person.availability person - personAllocated person)%Q.

(** [!totalAllocated] holds of the number zero. *)
Definition personCommitFraction (person : Person.t) : Q :=
  let totalAllocated := personAllocated person in
  if Qeq_bool totalAllocated 0 then 0%Q
  else
    let committed :=
      if rm_has peopleCommittedAllocations (Person.id person)
      then nonNull 0%Q (peopleCommittedAllocations !! Person.id person)
      else 0%Q in
    (committed / totalAllocated)%Q.

Definition isPersonOverallocated (person : Person.t) : bool :=
  Qgtb (personAllocated person) (Person.availability person).

(** The body of the first loop of [defaultPersonAvailability]:
    [!availCounts.get(a)] holds when the key is absent or counts zero. *)
Definition countAvailability (availCounts : list (Q * nat)) (p : Person.t)
  : list (Q * nat) :=
  let a := Person.availability p in
  let availCounts1 :=
    match om_get Qeq_bool a availCounts with
    | None | Some O => om_set Qeq_bool a 0%nat availCounts
    | Some (S _) => availCounts
    end in
  om_set Qeq_bool a (nonNull 0%nat (om_get Qeq_bool a availCounts1) + 1)%nat
         availCounts1.

(** The body of [availCounts.forEach((freq, a) => ...)], on the pair
    ([maxFreq], [mode]). *)
Definition pickMode (acc : nat * Q) (entry : Q * nat) : nat * Q :=
  let '(maxFreq, mode) := acc in
  let '(a, freq) := entry in
  if (maxFreq <? freq)%nat then (freq, a) else (maxFreq, mode).

Definition defaultPersonAvailability : Q :=
  let availCounts := fold_left countAvailability people [] in
  snd (fold_left pickMode availCounts (0%nat, 0%Q)).

(** How many people have availability [a]. *)
Definition frequency (a : Q) : nat :=
  List.length
    (List.filter (fun p => Qeq_bool (Person.availability p) a) people).

End Component.

(** C4: [personAllocated] is the entry of [person.id] in [peopleAllocations],
    or 0 when there is none; [personUnallocated] is the availability minus
    [personAllocated]; and [isPersonOverallocated] is [true] exactly when
    [personAllocated] is strictly greater than the availability. *)
Theorem person_allocation_figures
    (peopleAllocations : gmap string Q) (person : Person.t) :
  personAllocated peopleAllocations person =
    match peopleAllocations !! Person.id person with
    | Some allocated => allocated
    | None => 0%Q
    end
  /\ personUnallocated peopleAllocations person =
       (Person.availability person - personAllocated peopleAllocations person)%Q
  /\ (isPersonOverallocated peopleAllocations person = true <->
      (Person.availability person < personAllocated peopleAllocations person)%Q).
Proof.
  split; [|split].
  - unfold personAllocated, rm_has.
    now destruct (peopleAllocations !! Person.id person).
  - reflexivity.
  - unfold isPersonOverallocated, Qgtb. rewrite negb_true_iff.
    split.
    + intros H. apply Qnot_le_lt. intros Hle.
      apply Qle_bool_iff in Hle. congruence.
    + intros Hlt. destruct (Qle_bool _ _) eqn:E; [|reflexivity].
      apply Qle_bool_iff in E. lra.
Qed.

(** *** The modal availability *)

(** [availCounts] after the loop has run over people with availabilities
    [l]: one entry per distinct number, in order of first appearance, with
    its number of occurrences. *)
Definition counted (m : list (Q * nat)) (l : list Q) : Prop :=
  om_wf Qeq_bool m
  /\ map fst m = firstAppearances l
  /\ forall a, om_get Qeq_bool a m =
               if (occurrences a l =? 0)%nat then None
               else Some (occurrences a l).

Lemma countAvailability_counted m l p :
  counted m l ->
  counted (countAvailability m p) (l ++ [Person.availability p]).
Proof.
  intros (W & Keys & Get). unfold countAvailability.
  set (a := Person.availability p).
  pose proof (Get a) as Ga.
  assert (Hget : forall m1 n, om_wf Qeq_bool m1 ->
            (forall a', om_get Qeq_bool a' m1 =
                        if Qeq_bool a a' then Some n else om_get Qeq_bool a' m) ->
            S n = S (occurrences a l) ->
            map fst m1 = firstAppearances (l ++ [a]) ->
            counted (om_set Qeq_bool a (nonNull 0%nat (om_get Qeq_bool a m1) + 1)%nat m1)
                    (l ++ [a])).
  { intros m1 n W1 G1 En K1. split; [now apply num_set_wf|]. split.
    - rewrite om_set_keys. unfold om_has. rewrite G1, Qeq_bool_refl. exact K1.
    - intros a'. rewrite num_get_set, occurrences_snoc, G1, Qeq_bool_refl. simpl.
      destruct (Qeq_bool a a') eqn:E.
      + rewrite <- (occurrences_Qeq _ _ l E).
        replace (occurrences a l + 1)%nat with (S (occurrences a l)) by lia.
        simpl. f_equal. lia.
      + rewrite G1, E, Get, Nat.add_0_r. reflexivity. }
  destruct (om_get Qeq_bool a m) as [[|n]|] eqn:E.
  - destruct (occurrences a l =? 0)%nat eqn:O; [discriminate|].
    injection Ga as Ga. apply Nat.eqb_neq in O. lia.
  - destruct (occurrences a l =? 0)%nat eqn:O; [discriminate|].
    injection Ga as Ga.
    apply (Hget m (S n) W).
    + intros a'. destruct (Qeq_bool a a') eqn:Ea; [|reflexivity].
      now rewrite <- (om_get_eqb Qeq_bool Qeq_bool_comm Qeq_bool_trans _ _ m Ea).
    + now rewrite Ga.
    + now rewrite firstAppearances_snoc, O.
  - destruct (occurrences a l =? 0)%nat eqn:O; [|discriminate].
    apply Nat.eqb_eq in O.
    apply (Hget (om_set Qeq_bool a 0%nat m) 0%nat).
    + now apply num_set_wf.
    + intros a'. apply num_get_set.
    + now rewrite O.
    + rewrite om_set_keys. unfold om_has. rewrite E, Keys.
      rewrite firstAppearances_snoc. now rewrite O.
Qed.

Lemma availCounts_counted people :
  counted (fold_left countAvailability people [])
          (map Person.availability people).
Proof.
  assert (G : forall l m pre, counted m pre ->
            counted (fold_left countAvailability l m)
                    (pre ++ map Person.availability l)).
  { induction l as [|p l IH]; intros m pre C; simpl.
    - now rewrite app_nil_r.
    - replace (pre ++ Person.availability p :: map Person.availability l)%list
        with ((pre ++ [Person.availability p]) ++ map Person.availability l)%list
        by now rewrite <- app_assoc.
      apply IH. now apply countAvailability_counted. }
  apply (G people [] []). repeat split; simpl; auto.
Qed.

(** The second loop keeps the first entry of greatest count. *)
Lemma pickMode_first es : forall maxFreq mode,
  ((forall a f, In (a, f) es -> (f <= maxFreq)%nat)
   /\ fold_left pickMode es (maxFreq, mode) = (maxFreq, mode))
  \/ exists e1 a f e2,
       es = (e1 ++ (a, f) :: e2)%list
       /\ fold_left pickMode es (maxFreq, mode) = (f, a)
       /\ (maxFreq < f)%nat
       /\ (forall b g, In (b, g) e1 -> (g < f)%nat)
       /\ (forall b g, In (b, g) e2 -> (g <= f)%nat).
Proof.
  induction es as [|[a f] es IH]; intros maxFreq mode; simpl.
  - left. split; [tauto|reflexivity].
  - destruct (maxFreq <? f)%nat eqn:L.
    + apply Nat.ltb_lt in L. right.
      destruct (IH f a) as [[Hall E]|(e1 & a' & f' & e2 & -> & E & Lt & H1 & H2)].
      * exists [], a, f, es. simpl. repeat split; auto. tauto.
      * exists ((a, f) :: e1), a', f', e2. simpl. repeat split; auto; [lia|].
        intros b g [[= <- <-]|Hin]; [lia|eauto].
    + apply Nat.ltb_ge in L.
      destruct (IH maxFreq mode)
        as [[Hall E]|(e1 & a' & f' & e2 & -> & E & Lt & H1 & H2)].
      * left. split; [|exact E]. intros b g [[= <- <-]|Hin]; [lia|eauto].
      * right. exists ((a, f) :: e1), a', f', e2. simpl. repeat split; auto.
        intros b g [[= <- <-]|Hin]; [lia|eauto].
Qed.

Lemma frequency_occurrences people a :
  frequency people a = occurrences a (map Person.availability people).
Proof.
  unfold frequency, occurrences.
  induction people as [|p people IH]; simpl; [reflexivity|].
  destruct (Qeq_bool (Person.availability p) a); simpl; now rewrite IH.
Qed.

(** C10: [defaultPersonAvailability] returns 0 for an empty people list;
    otherwise it returns the availability of some person, no availability is
    more frequent among the people than it, and every person listed before
    the first one with that availability has a strictly less frequent
    availability: it is the first value, in order of first appearance, of
    greatest frequency. *)
Theorem defaultPersonAvailability_first_mode (people : list Person.t) :
  (people = [] -> defaultPersonAvailability people = 0%Q)
  /\ (people <> [] ->
      exists before p after,
        people = (before ++ p :: after)%list
        /\ defaultPersonAvailability people = Person.availability p
        /\ (forall q, In q people ->
              (frequency people (Person.availability q)
               <= frequency people (Person.availability p))%nat)
        /\ (forall q, In q before ->
              (frequency people (Person.availability q)
               < frequency people (Person.availability p))%nat)).
Proof.
  split; [now intros ->|]. intros Hne.
  unfold defaultPersonAvailability.
  destruct (availCounts_counted people) as (W & Keys & Get).
  set (m := fold_left countAvailability people []) in *.
  set (avs := map Person.availability people) in *.
  assert (Hfreq : forall a f, In (a, f) m -> f = occurrences a avs /\ (0 < f)%nat).
  { intros a f Hin. apply (num_In_get _ _ _ W) in Hin. rewrite Get in Hin.
    destruct (occurrences a avs =? 0)%nat eqn:O; [discriminate|].
    injection Hin as <-. apply Nat.eqb_neq in O. split; [reflexivity|lia]. }
  assert (Hentry : forall a, In a avs ->
            exists a', Qeq_bool a' a = true /\ In (a', occurrences a avs) m).
  { intros a Hin. apply occurrences_In in Hin. specialize (Get a).
    destruct (occurrences a avs =? 0)%nat eqn:O.
    - apply Nat.eqb_eq in O. lia.
    - now apply om_get_In in Get. }
  destruct (pickMode_first m 0%nat 0%Q)
    as [[Hall E]|(e1 & mode & f & e2 & Em & E & Lt & H1 & H2)].
  - exfalso. destruct people as [|p people']; [congruence|].
    destruct (Hentry (Person.availability p)) as (a' & _ & Hin); [now left|].
    destruct (Hfreq _ _ Hin) as [_ Hpos]. apply Hall in Hin. lia.
  - rewrite E. simpl.
    assert (Ef : f = occurrences mode avs).
    { apply Hfreq. rewrite Em. apply in_or_app. right. now left. }
    assert (Hmax : forall a g, In (a, g) m -> (g <= f)%nat).
    { intros a g Hin. rewrite Em in Hin. apply in_app_or in Hin as [Hin|[[= <- <-]|Hin]].
      - apply H1 in Hin. lia.
      - lia.
      - eauto. }
    rewrite Em, map_app in Keys. simpl in Keys. symmetry in Keys.
    apply firstAppearances_split in Keys as (l1 & l2 & Eavs & Hl1).
    unfold avs in Eavs.
    apply map_eq_app in Eavs as (before & rest & -> & <- & Erest).
    destruct rest as [|p after]; [discriminate|].
    injection Erest as Ep <-.
    exists before, p, after. split; [reflexivity|]. split; [now rewrite Ep|].
    rewrite !Ep. split.
    + intros q Hq. rewrite !frequency_occurrences. fold avs. rewrite <- Ef.
      destruct (Hentry (Person.availability q)) as (a' & _ & Hin).
      { unfold avs. now apply in_map. }
      eauto.
    + intros q Hq. rewrite !frequency_occurrences. fold avs. rewrite <- Ef.
      destruct (Hl1 (Person.availability q)) as (z & Hz & Ez).
      { now apply in_map. }
      apply in_map_iff in Hz as ([z' g] & Efst & Hz). simpl in Efst. subst z'.
      rewrite (occurrences_Qeq _ _ avs Ez).
      assert (Hin : In (z, g) m) by (rewrite Em; apply in_or_app; now left).
      destruct (Hfreq _ _ Hin) as [<- _]. eauto.
Qed.

End PeopleComponent.

(** ** Arrays: [findIndex], [splice], indexed assignment *)

Fixpoint findIndexFrom {A : Type} (f : A -> bool) (l : list A) (i : Z) : Z :=
  match l with
  | [] => (-1)%Z
  | x :: l' => if f x then i else findIndexFrom f l' (i + 1)%Z
  end.

Definition findIndex {A : Type} (f : A -> bool) (l : list A) : Z :=
  findIndexFrom f l 0%Z.

(** [splice(start, deleteCount)]: a negative [start] counts from the end,
    and both arguments are clamped to the array. *)
Definition splice {A : Type} (start deleteCount : Z) (l : list A) : list A :=
  let len := Z.of_nat (List.length l) in
  let actualStart :=
    if (start <? 0)%Z then Z.max (len + start) 0 else Z.min start len in
  let actualDeleteCount := Z.min (Z.max deleteCount 0) (len - actualStart) in
  (firstn (Z.to_nat actualStart) l
   ++ skipn (Z.to_nat (actualStart + actualDeleteCount)) l)%list.

(** [l[index] = v].  A negative [index] names a property of the array
    object that is not an element, so the elements stay as they are; the
    index just past the end appends.  An index further out would leave
    holes, which a list cannot hold: [findIndex], the only source of
    indices here, never returns one, and the elements are left as they
    are. *)
Definition assignAt {A : Type} (index : Z) (v : A) (l : list A) : list A :=
  if (index <? 0)%Z then l
  else if (index <? Z.of_nat (List.length l))%Z then <[Z.to_nat index := v]> l
  else if (index =? Z.of_nat (List.length l))%Z then (l ++ [v])%list
  else l.

Lemma findIndexFrom_absent {A : Type} (f : A -> bool) (l : list A) (i : Z) :
  (forall x, In x l -> f x = false) -> findIndexFrom f l i = (-1)%Z.
Proof.
  revert i. induction l as [|x l IH]; intros i H; simpl; [reflexivity|].
  rewrite (H x) by now left. apply IH. intros y Hy. apply H. now right.
Qed.

Lemma findIndexFrom_present {A : Type} (f : A -> bool) (l1 : list A) x l2 i :
  f x = true -> (forall y, In y l1 -> f y = false) ->
  findIndexFrom f (l1 ++ x :: l2) i = (i + Z.of_nat (List.length l1))%Z.
Proof.
  intros Fx. revert i. induction l1 as [|y l1 IH]; intros i H; simpl.
  - rewrite Fx. lia.
  - rewrite (H y) by now left. rewrite IH by (intros z Hz; apply H; now right).
    lia.
Qed.

Lemma splice_minus_one {A : Type} (l : list A) :
  splice (-1) 1 l = removelast l.
Proof.
  unfold splice. change (-1 <? 0)%Z with true. cbv iota.
  destruct l as [|x l]; [reflexivity|].
  set (len := List.length (x :: l)).
  assert (Hlen : (0 < len)%nat) by (unfold len; simpl; lia).
  replace (Z.max (Z.of_nat len + -1) 0) with (Z.of_nat (pred len)) by lia.
  replace (Z.min (Z.max 1 0) (Z.of_nat len - Z.of_nat (pred len))) with 1%Z by lia.
  replace (Z.to_nat (Z.of_nat (pred len) + 1)) with len by lia.
  rewrite Nat2Z.id. unfold len. rewrite skipn_all, app_nil_r.
  symmetry. apply removelast_firstn_len.
Qed.

Lemma splice_one_at {A : Type} (l1 : list A) x l2 :
  splice (Z.of_nat (List.length l1)) 1 (l1 ++ x :: l2) = (l1 ++ l2)%list.
Proof.
  unfold splice.
  assert (Hlen : List.length (l1 ++ x :: l2)
                 = (List.length l1 + S (List.length l2))%nat).
  { rewrite length_app. reflexivity. }
  rewrite Hlen.
  destruct (Z.of_nat (List.length l1) <? 0)%Z eqn:N; [apply Z.ltb_lt in N; lia|].
  replace (Z.min (Z.of_nat (List.length l1))
                 (Z.of_nat (List.length l1 + S (List.length l2))))
    with (Z.of_nat (List.length l1)) by lia.
  replace (Z.min (Z.max 1 0)
                 (Z.of_nat (List.length l1 + S (List.length l2))
                  - Z.of_nat (List.length l1)))
    with 1%Z by lia.
  replace (Z.to_nat (Z.of_nat (List.length l1) + 1))
    with (List.length l1 + 1)%nat by lia.
  rewrite Nat2Z.id. f_equal.
  - rewrite firstn_app, Nat.sub_diag, firstn_all. simpl. apply app_nil_r.
  - rewrite skipn_app, skipn_all2 by lia.
    replace (List.length l1 + 1 - List.length l1)%nat with 1%nat by lia.
    reflexivity.
Qed.

Lemma assignAt_minus_one {A : Type} (v : A) (l : list A) : assignAt (-1) v l = l.
Proof. reflexivity. Qed.

Lemma assignAt_at {A : Type} (v : A) (l1 : list A) x l2 :
  assignAt (Z.of_nat (List.length l1)) v (l1 ++ x :: l2) = (l1 ++ v :: l2)%list.
Proof.
  unfold assignAt.
  destruct (Z.of_nat (List.length l1) <? 0)%Z eqn:N; [apply Z.ltb_lt in N; lia|].
  destruct (Z.of_nat (List.length l1) <? Z.of_nat (List.length (l1 ++ x :: l2)))%Z
    eqn:L.
  - rewrite Nat2Z.id. clear. induction l1 as [|y l1 IH]; simpl; [reflexivity|].
    now rewrite IH.
  - apply Z.ltb_ge in L. rewrite length_app in L. simpl in L. lia.
Qed.

Lemma In_first_split (x : nat) (l : list nat) :
  In x l -> exists l1 l2, l = (l1 ++ x :: l2)%list /\ ~ In x l1.
Proof.
  induction l as [|y l IH]; simpl; [tauto|].
  intros H. destruct (Nat.eq_dec y x) as [->|Hne].
  - exists [], l. auto.
  - destruct H as [H|H]; [congruence|].
    destruct (IH H) as (l1 & l2 & -> & Hn).
    exists (y :: l1), l2. split; [reflexivity|]. simpl. tauto.
Qed.

(** ** BucketComponent

    The component receives an immutable bucket, copies its [objectives]
    array before changing the copy, and emits ([onChanged]) the pair of the
    bucket it received and a new bucket.  Arrays are objects of a store, so
    that changing the copy and leaving the original alone are two different
    things.  An objective is an object too; the component only stores
    objectives and compares them with [===], so an objective is
    represented by its identity. *)

Module BucketComponent.

Abbreviation ObjectiveRef := nat (only parsing).
Abbreviation loc := nat (only parsing).

Record Bucket := {
  displayName : string;
  allocationPercentage : Q;
  objectives : loc;
}.

(** The arrays of objectives, and the events [onChanged] has emitted. *)
Record Store := {
  arrays : gmap loc (list ObjectiveRef);
  onChanged : list (Bucket * Bucket);
}.

Definition Action (A : Type) : Type := Store -> A * Store.

Definition ret {A : Type} (a : A) : Action A := fun s => (a, s).

Definition bind {A B : Type} (c : Action A) (k : A -> Action B) : Action B :=
  fun s => let '(a, s') := c s in k a s'.

Notation "x <- c ;; k" := (bind c (fun x => k))
  (at level 100, c at next level, right associativity).
Notation "c ;; k" := (bind c (fun _ => k))
  (at level 100, right associativity).

(** The elements of the array at [l]. *)
Definition elements (l : loc) : Action (list ObjectiveRef) :=
  fun s => (nonNull [] (arrays s !! l), s).

(** [[...a]]: a new array with the elements of [a]. *)
Definition spread (l : loc) : Action loc :=
  fun s =>
    let l' := fresh (dom (arrays s)) in
    (l', {| arrays := <[l' := nonNull [] (arrays s !! l)]> (arrays s);
            onChanged := onChanged s |}).

(** An operation that changes the array at [l] in place. *)
Definition mutate (f : list ObjectiveRef -> list ObjectiveRef) (l : loc)
  : Action unit :=
  fun s => (tt, {| arrays := alter f l (arrays s); onChanged := onChanged s |}).

Definition emit (e : Bucket * Bucket) : Action unit :=
  fun s => (tt, {| arrays := arrays s; onChanged := (onChanged s ++ [e])%list |}).

(** [{...b, objectives: newObjectives}] *)
Definition withObjectives (b : Bucket) (newObjectives : loc) : Bucket :=
  {| displayName := displayName b;
     allocationPercentage := allocationPercentage b;
     objectives := newObjectives |}.

Section Component.
Variable bucket : Bucket.
Variable isEditingEnabled : bool.
(** [bucketResourcesAllocated] and [bucketCommittedResourcesAllocated] are
    imported from [../bucket]; they read the bucket in the store. *)
Variable bucketResourcesAllocated : Store -> Bucket -> Q.
Variable bucketCommittedResourcesAllocated : Store -> Bucket -> Q.

(** [dialogResult] is what the dialog hands to the subscriber when it
    closes: the new objective, or nothing when the dialog was dismissed. *)
Definition addObjective (dialogResult : option ObjectiveRef) : Action unit :=
  if negb isEditingEnabled then ret tt
  else
    match dialogResult with
    | None => ret tt
    | Some objective =>
        newObjectives <- spread (objectives bucket) ;;
        mutate (fun a => a ++ [objective])%list newObjectives ;;
        let newBucket := withObjectives bucket newObjectives in
        emit (bucket, newBucket)
    end.

Definition objectiveIndex (objective : ObjectiveRef) : Action Z :=
  os <- elements (objectives bucket) ;;
  ret (findIndex (fun o => Nat.eqb o objective) os).

Definition deleteObjective (objective : ObjectiveRef) : Action unit :=
  index <- objectiveIndex objective ;;
  newObjectives <- spread (objectives bucket) ;;
  mutate (splice index 1) newObjectives ;;
  let newBucket := withObjectives bucket newObjectives in
  emit (bucket, newBucket).

Definition onObjectiveChanged (original newObjective : ObjectiveRef)
  : Action unit :=
  index <- objectiveIndex original ;;
  newObjectives <- spread (objectives bucket) ;;
  mutate (assignAt index newObjective) newObjectives ;;
  let newBucket := withObjectives bucket newObjectives in
  emit (bucket, newBucket).

Definition resourcesAllocated (s : Store) : Q :=
  bucketResourcesAllocated s bucket.

Definition committedResourcesAllocated (s : Store) : Q :=
  bucketCommittedResourcesAllocated s bucket.

(** [total ? committed / total : 0] *)
Definition commitRatio (s : Store) : Q :=
  let total := resourcesAllocated s in
  if negb (Qeq_bool total 0) then (committedResourcesAllocated s / total)%Q
  else 0%Q.

End Component.

(** The objectives of the bucket that the last event announces. *)
Definition announced (s : Store) : option (list ObjectiveRef) :=
  match last (onChanged s) with
  | Some (_, newBucket) => arrays s !! objectives newBucket
  | None => None
  end.

(** Every array of [s] is still in [s'], with the same elements. *)
Definition keepsArrays (s s' : Store) : Prop :=
  forall l objs, arrays s !! l = Some objs -> arrays s' !! l = Some objs.

(** From [s] to [s'] one event was emitted: the pair of [bucket] and a new
    bucket with the same name and percentage, whose objectives are [newObjs]
    in an array that [s] did not have; the arrays of [s] are as they were. *)
Definition emitsEdited (bucket : Bucket) (s s' : Store)
    (newObjs : list ObjectiveRef) : Prop :=
  exists newBucket,
    onChanged s' = (onChanged s ++ [(bucket, newBucket)])%list
    /\ displayName newBucket = displayName bucket
    /\ allocationPercentage newBucket = allocationPercentage bucket
    /\ arrays s !! objectives newBucket = None
    /\ arrays s' !! objectives newBucket = Some newObjs
    /\ keepsArrays s s'.

(** The three editing operations share their last three steps: copy the
    array, change the copy, emit. *)
Lemma copy_change_emit (bucket : Bucket) f (s : Store) objs :
  arrays s !! objectives bucket = Some objs ->
  emitsEdited bucket s
    (snd ((newObjectives <- spread (objectives bucket) ;;
           mutate f newObjectives ;;
           emit (bucket, withObjectives bucket newObjectives)) s))
    (f objs).
Proof.
  intros H. unfold bind, spread, mutate, emit. simpl.
  set (l' := fresh (dom (arrays s))).
  assert (Hfresh : arrays s !! l' = None).
  { apply not_elem_of_dom. apply is_fresh. }
  exists (withObjectives bucket l'). simpl.
  split; [reflexivity|]. split; [reflexivity|]. split; [reflexivity|].
  split; [exact Hfresh|]. split.
  - rewrite H. simpl. rewrite lookup_alter_eq, lookup_insert_eq. reflexivity.
  - intros l os Hl.
    assert (l <> l') by congruence. simpl.
    rewrite lookup_alter_ne, lookup_insert_ne by congruence. exact Hl.
Qed.

Lemma objectiveIndex_run (bucket : Bucket) objective (s : Store) objs :
  arrays s !! objectives bucket = Some objs ->
  objectiveIndex bucket objective s
  = (findIndex (fun o => Nat.eqb o objective) objs, s).
Proof.
  intros H. unfold objectiveIndex, bind, elements, ret. cbv beta. now rewrite H.
Qed.

Lemma deleteObjective_run (bucket : Bucket) objective (s : Store) objs :
  arrays s !! objectives bucket = Some objs ->
  deleteObjective bucket objective s
  = (newObjectives <- spread (objectives bucket) ;;
     mutate (splice (findIndex (fun o => Nat.eqb o objective) objs) 1)
            newObjectives ;;
     emit (bucket, withObjectives bucket newObjectives)) s.
Proof.
  intros H. unfold deleteObjective, bind.
  now rewrite (objectiveIndex_run _ _ _ _ H).
Qed.

Lemma onObjectiveChanged_run (bucket : Bucket) original newObjective
    (s : Store) objs :
  arrays s !! objectives bucket = Some objs ->
  onObjectiveChanged bucket original newObjective s
  = (newObjectives <- spread (objectives bucket) ;;
     mutate (assignAt (findIndex (fun o => Nat.eqb o original) objs)
                      newObjective)
            newObjectives ;;
     emit (bucket, withObjectives bucket newObjectives)) s.
Proof.
  intros H. unfold onObjectiveChanged, bind.
  now rewrite (objectiveIndex_run _ _ _ _ H).
Qed.

Lemma findIndex_first objective l1 l2 :
  ~ In objective l1 ->
  findIndex (fun o => Nat.eqb o objective) (l1 ++ objective :: l2)
  = Z.of_nat (List.length l1).
Proof.
  intros Hn. unfold findIndex. rewrite findIndexFrom_present.
  - lia.
  - apply Nat.eqb_refl.
  - intros y Hy. apply Nat.eqb_neq. intros ->. contradiction.
Qed.

Lemma findIndex_none objective l :
  ~ In objective l -> findIndex (fun o => Nat.eqb o objective) l = (-1)%Z.
Proof.
  intros Hn. apply findIndexFrom_absent.
  intros y Hy. apply Nat.eqb_neq. intros ->. contradiction.
Qed.

(** C5, as amended: each of [addObjective], [deleteObjective] and
    [onObjectiveChanged] leaves every array of the store, and so the bucket
    it was given, as it was, and emits the pair of that bucket and a new
    bucket with the same [displayName] and [allocationPercentage] whose
    objectives are in a new array.  [addObjective] (editing enabled, dialog
    closed with an objective) announces the original objectives followed by
    the dialog's objective, and emits nothing when editing is disabled or
    the dialog is dismissed; [deleteObjective], given an objective that is in
    the list, announces the list without the first occurrence of it;
    [onObjectiveChanged], given an original that is in the list, announces
    the list with the first occurrence of it replaced by the new objective
    at the same position. *)
Theorem edits_announce_changed_copy
    (bucket : Bucket) (s : Store) (objs : list ObjectiveRef)
    (Hobjs : arrays s !! objectives bucket = Some objs) :
  (forall objective,
      emitsEdited bucket s
        (snd (addObjective bucket true (Some objective) s))
        (objs ++ [objective]))
  /\ (forall dialogResult, addObjective bucket false dialogResult s = (tt, s))
  /\ addObjective bucket true None s = (tt, s)
  /\ (forall objective,
        exists newObjs,
          emitsEdited bucket s (snd (deleteObjective bucket objective s)) newObjs
          /\ (In objective objs ->
              exists l1 l2, objs = (l1 ++ objective :: l2)%list
                            /\ ~ In objective l1
                            /\ newObjs = (l1 ++ l2)%list))
  /\ (forall original newObjective,
        exists newObjs,
          emitsEdited bucket s
            (snd (onObjectiveChanged bucket original newObjective s)) newObjs
          /\ (In original objs ->
              exists l1 l2, objs = (l1 ++ original :: l2)%list
                            /\ ~ In original l1
                            /\ newObjs = (l1 ++ newObjective :: l2)%list)).
Proof.
  split; [|split; [|split; [|split]]].
  - intros objective. unfold addObjective. simpl.
    apply (copy_change_emit bucket (fun a => a ++ [objective])%list s objs Hobjs).
  - reflexivity.
  - reflexivity.
  - intros objective.
    set (index := findIndex (fun o => Nat.eqb o objective) objs).
    exists (splice index 1 objs). split.
    + rewrite (deleteObjective_run _ _ _ _ Hobjs). fold index.
      now apply copy_change_emit.
    + intros Hin. apply In_first_split in Hin as (l1 & l2 & E & Hn).
      exists l1, l2. split; [exact E|]. split; [exact Hn|].
      unfold index. rewrite E, findIndex_first by exact Hn.
      apply splice_one_at.
  - intros original newObjective.
    set (index := findIndex (fun o => Nat.eqb o original) objs).
    exists (assignAt index newObjective objs). split.
    + rewrite (onObjectiveChanged_run _ _ _ _ _ Hobjs). fold index.
      now apply copy_change_emit.
    + intros Hin. apply In_first_split in Hin as (l1 & l2 & E & Hn).
      exists l1, l2. split; [exact E|]. split; [exact Hn|].
      unfold index. rewrite E, findIndex_first by exact Hn.
      apply assignAt_at.
Qed.

(** C9, as amended: when [deleteObjective] is given an objective that is not
    in the bucket's list, [objectiveIndex] returns -1 and the component emits
    a new bucket whose objectives are the original ones without the last;
    when the list is not empty, that is not the list it started from (an
    empty list has no last element and is announced as it is). *)
Theorem deleteObjective_absent_drops_last
    (bucket : Bucket) (s : Store) (objs : list ObjectiveRef)
    (objective : ObjectiveRef)
    (Hobjs : arrays s !! objectives bucket = Some objs)
    (Habsent : ~ In objective objs) :
  fst (objectiveIndex bucket objective s) = (-1)%Z
  /\ emitsEdited bucket s (snd (deleteObjective bucket objective s))
                 (removelast objs)
  /\ (objs <> [] -> removelast objs <> objs).
Proof.
  split; [|split].
  - rewrite (objectiveIndex_run _ _ _ _ Hobjs). simpl.
    now apply findIndex_none.
  - rewrite (deleteObjective_run _ _ _ _ Hobjs), (findIndex_none _ _ Habsent).
    rewrite <- splice_minus_one. now apply copy_change_emit.
  - intros Hne E. apply (f_equal (@List.length _)) in E.
    destruct (exists_last Hne) as (l' & a & ->).
    rewrite removelast_last, length_app in E. simpl in E. lia.
Qed.

End BucketComponent.

(** ** The commitment ratios of a person and of a bucket *)

(** C3: each commitment ratio is the committed allocation divided by the
    total allocation, and 0 when the total allocation is 0.
    [personCommitFraction] is 0 when [personAllocated] is 0, and otherwise the
    person's entry in [peopleCommittedAllocations] (0 when there is none)
    divided by [personAllocated]; [commitRatio] is 0 when
    [resourcesAllocated()] is 0, and otherwise [committedResourcesAllocated()]
    divided by [resourcesAllocated()]. *)
Theorem commit_ratio_is_committed_over_total
    (peopleAllocations peopleCommittedAllocations : gmap string Q)
    (person : Person.t)
    (bucket : BucketComponent.Bucket)
    (bucketResourcesAllocated bucketCommittedResourcesAllocated :
       BucketComponent.Store -> BucketComponent.Bucket -> Q)
    (s : BucketComponent.Store) :
  let allocated := PeopleComponent.personAllocated peopleAllocations person in
  let committed :=
    match peopleCommittedAllocations !! Person.id person with
    | Some c => c
    | None => 0%Q
    end in
  let fraction :=
    PeopleComponent.personCommitFraction
      peopleAllocations peopleCommittedAllocations person in
  let total :=
    BucketComponent.resourcesAllocated bucket bucketResourcesAllocated s in
  let committedTotal :=
    BucketComponent.committedResourcesAllocated
      bucket bucketCommittedResourcesAllocated s in
  let ratio :=
    BucketComponent.commitRatio
      bucket bucketResourcesAllocated bucketCommittedResourcesAllocated s in
  ((allocated == 0)%Q -> fraction = 0%Q)
  /\ (~ (allocated == 0)%Q -> fraction = (committed / allocated)%Q)
  /\ ((total == 0)%Q -> ratio = 0%Q)
  /\ (~ (total == 0)%Q -> ratio = (committedTotal / total)%Q).
Proof.
  cbv zeta.
  unfold PeopleComponent.personCommitFraction, BucketComponent.commitRatio.
  split; [|split; [|split]].
  - intros E. apply Qeq_bool_iff in E. now rewrite E.
  - intros N.
    destruct (Qeq_bool (PeopleComponent.personAllocated peopleAllocations person) 0)
      eqn:E; [apply Qeq_bool_iff in E; contradiction|].
    unfold rm_has.
    now destruct (peopleCommittedAllocations !! Person.id person).
  - intros E. apply Qeq_bool_iff in E. now rewrite E.
  - intros N.
    destruct (Qeq_bool
                (BucketComponent.resourcesAllocated bucket bucketResourcesAllocated s)
                0) eqn:E; [apply Qeq_bool_iff in E; contradiction|].
    reflexivity.
Qed.

(** ** StorageService *)

Lemma prefix_append (s t : string) : String.prefix s (String.append s t) = true.
Proof.
  induction s as [|a s IH]; simpl; [now destruct t|].
  destruct (Ascii.ascii_dec a a); [exact IH|contradiction].
Qed.

Lemma prefix_refl (s : string) : String.prefix s s = true.
Proof.
  induction s as [|a s IH]; simpl; [reflexivity|].
  destruct (Ascii.ascii_dec a a); [exact IH|contradiction].
Qed.

Module StorageService.

(** The request methods of HTTP; [HttpClient] has a function for each. *)
Inductive Method := GET | HEAD | POST | PUT | DELETE | OPTIONS | PATCH.

Section Service.
(** [Team] and [Period] come from [./team] and [./period]; the service reads
    their [id] and sends them whole. *)
Variables Team Period : Type.
Variable team_id : Team -> string.
Variable period_id : Period -> string.

Inductive Body := TeamBody (team : Team) | PeriodBody (period : Period).

Record Request := {
  method : Method;
  url : string;
  body : option Body;
  headers : list (string * string);
}.

Definition jsonOptions : list (string * string) :=
  [("Content-Type", "application/json")]%string.

Definition getTeams : Request :=
  {| method := GET; url := "/api/team/"; body := None; headers := [] |}.

Definition getTeam (teamId : string) : Request :=
  {| method := GET; url := String.append "/api/team/" teamId;
     body := None; headers := [] |}.

Definition addTeam (team : Team) : Request :=
  {| method := POST; url := "/api/team/";
     body := Some (TeamBody team); headers := jsonOptions |}.

Definition updateTeam (team : Team) : Request :=
  {| method := PUT; url := String.append "/api/team/" (team_id team);
     body := Some (TeamBody team); headers := jsonOptions |}.

Definition getPeriods (teamId : string) : Request :=
  {| method := GET;
     url := String.append (String.append "/api/period/" teamId) "/";
     body := None; headers := [] |}.

Definition getPeriod (teamId periodId : string) : Request :=
  {| method := GET;
     url := String.append (String.append (String.append "/api/period/" teamId) "/")
                          periodId;
     body := None; headers := [] |}.

Definition addPeriod (teamId : string) (period : Period) : Request :=
  {| method := POST;
     url := String.append (String.append "/api/period/" teamId) "/";
     body := Some (PeriodBody period); headers := jsonOptions |}.

Definition updatePeriod (teamId : string) (period : Period) : Request :=
  {| method := PUT;
     url := String.append (String.append (String.append "/api/period/" teamId) "/")
                          (period_id period);
     body := Some (PeriodBody period); headers := jsonOptions |}.

(** A call of one of the public methods of the class. *)
Inductive Call :=
| GetTeams
| GetTeam (teamId : string)
| AddTeam (team : Team)
| UpdateTeam (team : Team)
| GetPeriods (teamId : string)
| GetPeriod (teamId periodId : string)
| AddPeriod (teamId : string) (period : Period)
| UpdatePeriod (teamId : string) (period : Period).

Definition request (c : Call) : Request :=
  match c with
  | GetTeams => getTeams
  | GetTeam teamId => getTeam teamId
  | AddTeam team => addTeam team
  | UpdateTeam team => updateTeam team
  | GetPeriods teamId => getPeriods teamId
  | GetPeriod teamId periodId => getPeriod teamId periodId
  | AddPeriod teamId period => addPeriod teamId period
  | UpdatePeriod teamId period => updatePeriod teamId period
  end.

(** *** The words of the description: what a method is for *)

Inductive Operation := Get | Add | Update.

Inductive Resource := Teams | PeriodsOf (teamId : string).

Definition operation (c : Call) : Operation :=
  match c with
  | GetTeams | GetTeam _ | GetPeriods _ | GetPeriod _ _ => Get
  | AddTeam _ | AddPeriod _ _ => Add
  | UpdateTeam _ | UpdatePeriod _ _ => Update
  end.

Definition resource (c : Call) : Resource :=
  match c with
  | GetTeams | GetTeam _ | AddTeam _ | UpdateTeam _ => Teams
  | GetPeriods t | GetPeriod t _ | AddPeriod t _ | UpdatePeriod t _ => PeriodsOf t
  end.

Definition verb (o : Operation) : Method :=
  match o with Get => GET | Add => POST | Update => PUT end.

Definition basePath (r : Resource) : string :=
  match r with
  | Teams => "/api/team/"
  | PeriodsOf teamId => String.append (String.append "/api/period/" teamId) "/"
  end.

End Service.

Arguments method {Team Period} _.
Arguments url {Team Period} _.
Arguments body {Team Period} _.
Arguments headers {Team Period} _.
Arguments GetTeams {Team Period}.
Arguments GetTeam {Team Period} teamId.
Arguments AddTeam {Team Period} team.
Arguments UpdateTeam {Team Period} team.
Arguments GetPeriods {Team Period} teamId.
Arguments GetPeriod {Team Period} teamId periodId.
Arguments AddPeriod {Team Period} teamId period.
Arguments UpdatePeriod {Team Period} teamId period.
Arguments request {Team Period} team_id period_id c.
Arguments operation {Team Period} c.
Arguments resource {Team Period} c.

(** C6: the service wraps team and period get/add/update.  Every method of
    [StorageService] is a get, an add or an update of teams or of the periods
    of a team: a get is a GET without body, an add a POST and an update a
    PUT of the object; the URL is under [/api/team/] for teams and under
    [/api/period/<teamId>/] for periods.  So no request uses another method
    or another path, and each of the three operations exists for teams and
    for periods. *)
Theorem storage_is_get_add_update_of_teams_and_periods
    (Team Period : Type) (team_id : Team -> string) (period_id : Period -> string) :
  (forall c : Call Team Period,
      let r := request team_id period_id c in
      method r = verb (operation c)
      /\ String.prefix (basePath (resource c)) (url r) = true
      /\ (body r = None <-> operation c = Get)
      /\ (method r = GET \/ method r = POST \/ method r = PUT))
  /\ (forall (team : Team) (period : Period) (teamId : string) (o : Operation),
        (exists c : Call Team Period, operation c = o /\ resource c = Teams)
        /\ (exists c : Call Team Period,
              operation c = o /\ resource c = PeriodsOf teamId)).
Proof.
  split.
  - intros c. destruct c; cbv zeta;
      unfold request, getTeams, getTeam, addTeam, updateTeam, getPeriods,
        getPeriod, addPeriod, updatePeriod, operation, resource, basePath, verb;
      cbn [method url body];
      (split; [reflexivity|]);
      (split; [first [apply prefix_refl | apply prefix_append]|]);
      (split; [split; congruence|tauto]).
  - intros team period teamId o. destruct o; split.
    + exists GetTeams. auto.
    + exists (GetPeriods teamId). auto.
    + exists (AddTeam team). auto.
    + exists (AddPeriod teamId period). auto.
    + exists (UpdateTeam team). auto.
    + exists (UpdatePeriod teamId period). auto.
Qed.

End StorageService.

(** ** Worked examples

    A collation, an allocation measure and a small period on which the
    components are run, and the instances of the statements above at
    these inputs. *)

Module Examples.

(** Comparison of strings by code units, as a collation. *)
Definition codeUnitCompare (a b : string) : Z :=
  match String.compare a b with
  | Lt => (-1)%Z
  | Eq => 0%Z
  | Gt => 1%Z
  end.

(** The allocation of an objective as the sum of its commitments. *)
Definition sumOfCommitments (o : Objective.t) : Q :=
  fold_left (fun sum a => (sum + commitment a)%Q) (Objective.assignments o) 0%Q.

Definition sumOfAllocations (objectives : list Objective.t) : Q :=
  fold_left (fun sum o => (sum + sumOfCommitments o)%Q) objectives 0%Q.

Definition objective (name : string) (groups : list (string * string))
    (tags : list string) (assignments : list (string * Q)) : Objective.t :=
  Objective.mk name
    (map (fun g => {| groupType := fst g; groupName := snd g |}) groups)
    (map Tag.mk tags)
    (map (fun a => {| personId := fst a; commitment := snd a |}) assignments).

Definition search : Objective.t :=
  objective "search" [("area", "web"); ("team", "alpha")] ["q1"; "infra"]
            [("ann", 3%Q); ("bob", 2%Q)].

Definition billing : Objective.t :=
  objective "billing" [("team", "beta"); ("team", "alpha")] ["q1"]
            [("ann", 1%Q)].

Definition login : Objective.t :=
  objective "login" [("team", "alpha")] [] [("cy", 4%Q); ("ann", 5%Q)].

Definition cleanup : Objective.t :=
  objective "cleanup" [("area", "web")] ["infra"; "infra"] [].

Definition period : Period.t :=
  Period.mk [Bucket.mk "now" 60%Q [search; billing];
             Bucket.mk "later" 40%Q [login; cleanup]].

Definition ann : Person.t := Person.mk "ann" "Ann" 8%Q.
Definition dee : Person.t := Person.mk "dee" "Dee" 8%Q.

Definition bucket : BucketComponent.Bucket :=
  {| BucketComponent.displayName := "now";
     BucketComponent.allocationPercentage := 60%Q;
     BucketComponent.objectives := 0%nat |}.

(** A store where the bucket has the objectives 1, 2 and 3, and one where it
    has none. *)
Definition store : BucketComponent.Store :=
  {| BucketComponent.arrays := {[ 0%nat := [1; 2; 3]%nat ]};
     BucketComponent.onChanged := [] |}.

Definition emptyStore : BucketComponent.Store :=
  {| BucketComponent.arrays := {[ 0%nat := [] ]};
     BucketComponent.onChanged := [] |}.

Lemma codeUnitCompare_total (a b : string) :
  (codeUnitCompare a b <= 0)%Z \/ (codeUnitCompare b a <= 0)%Z.
Proof.
  unfold codeUnitCompare. rewrite (String.compare_antisym a b).
  destruct (String.compare b a); simpl; lia.
Qed.

Lemma codeUnitCompare_le (a b : string) :
  (codeUnitCompare a b <= 0)%Z <->
  a = b \/ OrderedTypeEx.String_as_OT.lt a b.
Proof.
  unfold codeUnitCompare.
  rewrite <- OrderedTypeEx.String_as_OT.cmp_eq, <- OrderedTypeEx.String_as_OT.cmp_lt.
  unfold OrderedTypeEx.String_as_OT.cmp.
  destruct (String.compare a b); split; intros H; try lia; auto.
  destruct H; discriminate.
Qed.

Lemma codeUnitCompare_trans (a b c : string) :
  (codeUnitCompare a b <= 0)%Z -> (codeUnitCompare b c <= 0)%Z ->
  (codeUnitCompare a c <= 0)%Z.
Proof.
  rewrite !codeUnitCompare_le. intros [->|H1] [->|H2]; auto.
  right. eapply OrderedTypeEx.String_as_OT.lt_trans; eauto.
Qed.

(** The two views of the period. *)
Example objectivesByGroup_of_period :
  map (fun e => (fst e, map Objective.name (snd e)))
      (AssignmentsClassifyComponent.objectivesByGroup
         sumOfCommitments sumOfAllocations codeUnitCompare period (Some "team"))
  = [("alpha", ["login"; "search"]); ("beta", ["billing"])]%string.
Proof. vm_compute. reflexivity. Qed.

Example objectivesByGroup_without_groupType :
  AssignmentsClassifyComponent.objectivesByGroup
    sumOfCommitments sumOfAllocations codeUnitCompare period None = [].
Proof. vm_compute. reflexivity. Qed.

Example objectivesByTag_of_period :
  map (fun e => (fst e, map Objective.name (snd e)))
      (AssignmentsClassifyComponent.objectivesByTag
         sumOfCommitments codeUnitCompare period)
  = [("infra", ["search"; "cleanup"; "cleanup"]);
     ("q1", ["search"; "billing"])]%string.
Proof. vm_compute. reflexivity. Qed.

Example assignmentsFor_ann :
  map (fun oa => (Objective.name (AssignmentsByPersonComponent.objective oa),
                  commitment (AssignmentsByPersonComponent.assignment oa)))
      (AssignmentsByPersonComponent.assignmentsFor period ann)
  = [("login", 5%Q); ("search", 3%Q); ("billing", 1%Q)]%string.
Proof. vm_compute. reflexivity. Qed.

Example hasAssignments_ann_not_dee :
  AssignmentsByPersonComponent.hasAssignments period ann = true
  /\ AssignmentsByPersonComponent.hasAssignments period dee = false
  /\ AssignmentsByPersonComponent.assignmentsFor period dee = [].
Proof. vm_compute. auto. Qed.

(** The people table. *)
Definition allocations : gmap string Q := {[ "ann" := 9%Q ]}.
Definition committed : gmap string Q := {[ "ann" := 3%Q ]}.

Example figures_of_ann_and_dee :
  PeopleComponent.personAllocated allocations ann = 9%Q
  /\ PeopleComponent.personAllocated allocations dee = 0%Q
  /\ PeopleComponent.isPersonOverallocated allocations ann = true
  /\ PeopleComponent.isPersonOverallocated allocations dee = false
  /\ PeopleComponent.personCommitFraction allocations committed ann = (3 / 9)%Q
  /\ PeopleComponent.personCommitFraction allocations committed dee = 0%Q.
Proof. vm_compute. repeat split. Qed.

Definition staff (availabilities : list Q) : list Person.t :=
  map (fun a => Person.mk "p" "P" a) availabilities.

(** 5 and 3 are equally frequent and 5 is met first; 1/2 and 2/4 are the
    same number. *)
Example defaultPersonAvailability_examples :
  PeopleComponent.defaultPersonAvailability (staff [5; 3; 3; 5; 1]%Q) = 5%Q
  /\ PeopleComponent.defaultPersonAvailability (staff [1; 3; 3; 5; 1; 3]%Q) = 3%Q
  /\ PeopleComponent.defaultPersonAvailability (staff [7; 1 # 2; 2 # 4]%Q) = (1 # 2)%Q
  /\ PeopleComponent.defaultPersonAvailability [] = 0%Q.
Proof. vm_compute. repeat split. Qed.

(** The bucket editor. *)
Example addObjective_announces_appended :
  BucketComponent.announced
    (snd (BucketComponent.addObjective bucket true (Some 9%nat) store))
  = Some [1; 2; 3; 9]%nat.
Proof. vm_compute. reflexivity. Qed.

Example deleteObjective_announces_removed :
  BucketComponent.announced
    (snd (BucketComponent.deleteObjective bucket 2%nat store))
  = Some [1; 3]%nat
  /\ BucketComponent.arrays
       (snd (BucketComponent.deleteObjective bucket 2%nat store)) !! 0%nat
     = Some [1; 2; 3]%nat.
Proof. vm_compute. auto. Qed.

Example onObjectiveChanged_announces_replaced :
  BucketComponent.announced
    (snd (BucketComponent.onObjectiveChanged bucket 2%nat 9%nat store))
  = Some [1; 9; 3]%nat.
Proof. vm_compute. reflexivity. Qed.

Example deleteObjective_of_absent_objective :
  fst (BucketComponent.objectiveIndex bucket 7%nat store) = (-1)%Z
  /\ BucketComponent.announced
       (snd (BucketComponent.deleteObjective bucket 7%nat store))
     = Some [1; 2]%nat.
Proof. vm_compute. auto. Qed.

(** The requests of the storage service, for teams and periods that are
    their own identifiers. *)
Example requests_of_storage :
  let request := StorageService.request (fun t : string => t) (fun p : string => p) in
  StorageService.url (request (StorageService.UpdateTeam "t1"))
  = "/api/team/t1"%string
  /\ StorageService.url (request (StorageService.GetPeriods "t1"))
     = "/api/period/t1/"%string
  /\ StorageService.url (request (StorageService.UpdatePeriod "t1" "2021q1"))
     = "/api/period/t1/2021q1"%string
  /\ StorageService.method (request (StorageService.AddPeriod "t1" "2021q1"))
     = StorageService.POST.
Proof. vm_compute. auto. Qed.

(** *** Instances of the statements *)

(** C1 at the example period, for the group type [team]. *)
Lemma objectivesByGroup_sorted_example :
  StronglySorted
    (AssignmentsClassifyComponent.groupOrder sumOfAllocations codeUnitCompare)
    (AssignmentsClassifyComponent.objectivesByGroup
       sumOfCommitments sumOfAllocations codeUnitCompare period (Some "team")).
Proof.
  apply (AssignmentsClassifyComponent.objectivesByGroup_grouped_and_sorted
           sumOfCommitments sumOfAllocations codeUnitCompare period (Some "team")
           codeUnitCompare_total codeUnitCompare_trans).
Defined.

(** C2 at the example period. *)
Lemma objectivesByTag_sorted_example :
  StronglySorted
    (AssignmentsClassifyComponent.tagOrder codeUnitCompare)
    (AssignmentsClassifyComponent.objectivesByTag
       sumOfCommitments codeUnitCompare period).
Proof.
  apply (AssignmentsClassifyComponent.objectivesByTag_grouped_and_sorted
           sumOfCommitments codeUnitCompare period
           codeUnitCompare_total codeUnitCompare_trans).
Defined.

Lemma store_has_objectives :
  BucketComponent.arrays store !! BucketComponent.objectives bucket
  = Some [1; 2; 3]%nat.
Proof. reflexivity. Defined.

(** C5, as amended, at the example store: deleting the objective 2. *)
Lemma deleteObjective_present_example :
  exists newObjs,
    BucketComponent.emitsEdited bucket store
      (snd (BucketComponent.deleteObjective bucket 2%nat store)) newObjs
    /\ (In 2%nat [1; 2; 3]%nat ->
        exists l1 l2, [1; 2; 3]%nat = (l1 ++ 2%nat :: l2)%list
                      /\ ~ In 2%nat l1 /\ newObjs = (l1 ++ l2)%list).
Proof.
  destruct (BucketComponent.edits_announce_changed_copy
              bucket store [1; 2; 3]%nat store_has_objectives)
    as (_ & _ & _ & Hdelete & _).
  exact (Hdelete 2%nat).
Defined.

Lemma seven_is_absent : ~ In 7%nat [1; 2; 3]%nat.
Proof. simpl. lia. Defined.

(** C9 at the example store: deleting the objective 7, which the bucket
    does not have. *)
Lemma deleteObjective_absent_example :
  fst (BucketComponent.objectiveIndex bucket 7%nat store) = (-1)%Z
  /\ BucketComponent.emitsEdited bucket store
       (snd (BucketComponent.deleteObjective bucket 7%nat store))
       (removelast [1; 2; 3]%nat)
  /\ ([1; 2; 3]%nat <> [] -> removelast [1; 2; 3]%nat <> [1; 2; 3]%nat).
Proof.
  exact (BucketComponent.deleteObjective_absent_drops_last
           bucket store [1; 2; 3]%nat 7%nat store_has_objectives
           seven_is_absent).
Defined.

(** C9 as it was stated fails on a bucket without objectives: no objective
    is in its list, [objectiveIndex] returns -1, and the bucket that
    [deleteObjective] emits has the objectives of the original, none, so it
    is an unchanged bucket. *)
Lemma deleteObjective_absent_on_empty_bucket_is_unchanged :
  ~ In 7%nat []
  /\ BucketComponent.arrays emptyStore !! BucketComponent.objectives bucket
     = Some []
  /\ fst (BucketComponent.objectiveIndex bucket 7%nat emptyStore) = (-1)%Z
  /\ BucketComponent.announced
       (snd (BucketComponent.deleteObjective bucket 7%nat emptyStore))
     = BucketComponent.arrays emptyStore !! BucketComponent.objectives bucket
  /\ ~ (BucketComponent.announced
          (snd (BucketComponent.deleteObjective bucket 7%nat emptyStore))
        <> Some []).
Proof.
  assert (A : BucketComponent.announced
                (snd (BucketComponent.deleteObjective bucket 7%nat emptyStore))
              = Some []) by (vm_compute; reflexivity).
  split; [intros []|]. split; [reflexivity|].
  split; [vm_compute; reflexivity|]. split; [rewrite A; reflexivity|].
  intros N. apply N. exact A.
Qed.

(** C5 as it was stated fails: on a bucket without objectives
    [deleteObjective] announces the same, empty, list, so no objective was
    removed; and [onObjectiveChanged] for an original that the bucket does
    not have announces the objectives it had, so nothing was replaced by
    the new objective. *)
Lemma edit_of_absent_objective_changes_nothing :
  BucketComponent.arrays emptyStore !! BucketComponent.objectives bucket = Some []
  /\ BucketComponent.announced
       (snd (BucketComponent.deleteObjective bucket 7%nat emptyStore)) = Some []
  /\ ~ (exists l1 x l2,
          [] = (l1 ++ x :: l2)%list
          /\ BucketComponent.announced
               (snd (BucketComponent.deleteObjective bucket 7%nat emptyStore))
             = Some (l1 ++ l2)%list)
  /\ BucketComponent.announced
       (snd (BucketComponent.onObjectiveChanged bucket 7%nat 9%nat store))
     = Some [1; 2; 3]%nat
  /\ ~ (exists l1 x l2,
          [1; 2; 3]%nat = (l1 ++ x :: l2)%list
          /\ BucketComponent.announced
               (snd (BucketComponent.onObjectiveChanged bucket 7%nat 9%nat store))
             = Some (l1 ++ 9%nat :: l2)%list).
Proof.
  split; [reflexivity|]. split; [vm_compute; reflexivity|]. split.
  - intros (l1 & x & l2 & E & _). now destruct l1.
  - split; [vm_compute; reflexivity|].
    intros (l1 & x & l2 & E & H).
    assert (A : BucketComponent.announced
                  (snd (BucketComponent.onObjectiveChanged bucket 7%nat 9%nat store))
                = Some [1; 2; 3]%nat) by (vm_compute; reflexivity).
    rewrite A in H. injection H as H.
    assert (Hin : In 9%nat [1; 2; 3]%nat).
    { rewrite H. apply in_or_app. right. now left. }
    simpl in Hin. lia.
Qed.

End Examples.

(** ** BucketComponent: the other operations

    [edit], [moveObjective], [reorderDrop], [isOverCommitted] and the
    limits, over the same store. *)

Module BucketEditing.
Import BucketComponent.

(** [[]]: a new, empty array. *)
Definition emptyArray : Action loc :=
  fun s =>
    let l' := fresh (dom (arrays s)) in
    (l', {| arrays := <[l' := []]> (arrays s); onChanged := onChanged s |}).

Section Component.
Variable bucket : Bucket.
Variable isEditingEnabled : bool.
Variable globalResourcesAvailable : Q.
Variable totalAllocationPercentage : Q.
Variable maxCommittedPercentage : Q.
Variable bucketResourcesAllocated : Store -> Bucket -> Q.
Variable bucketCommittedResourcesAllocated : Store -> Bucket -> Q.
(** [moveItemInArray] comes from the drag-and-drop library; it changes the
    array it is given in place. *)
Variable moveItemInArray : list nat -> Z -> Z -> list nat.

Definition bucketAllocationLimit : Q :=
  (globalResourcesAvailable * allocationPercentage bucket / 100)%Q.

(** [dialog] is the bucket dialog: from the bucket it is opened on to the
    edited bucket it closes with, or nothing. *)
Definition edit (dialog : Bucket -> option Bucket) : Action unit :=
  if negb isEditingEnabled then ret tt
  else
    draftObjectives <- emptyArray ;;
    let newBucket :=
      {| displayName := displayName bucket;
         allocationPercentage := allocationPercentage bucket;
         objectives := draftObjectives |} in
    match dialog newBucket with
    | None => ret tt
    | Some editedBucket =>
        let newBucket :=
          {| displayName := displayName editedBucket;
             allocationPercentage := allocationPercentage editedBucket;
             objectives := objectives bucket |} in
        emit (bucket, newBucket)
    end.

Definition moveObjective (original newObjective : nat) (newBucket : Bucket)
  : Action unit :=
  deleteObjective bucket original ;;
  newObjectives <- spread (objectives newBucket) ;;
  mutate (fun a => a ++ [newObjective])%list newObjectives ;;
  emit (newBucket, withObjectives newBucket newObjectives).

(** [event.previousIndex] and [event.currentIndex] are the arguments. *)
Definition reorderDrop (previousIndex currentIndex : Z) : Action unit :=
  newObjectives <- spread (objectives bucket) ;;
  mutate (fun a => moveItemInArray a previousIndex currentIndex) newObjectives ;;
  if negb (previousIndex =? currentIndex)%Z then
    let newBucket := withObjectives bucket newObjectives in
    emit (bucket, newBucket)
  else ret tt.

Definition isOverAllocated : bool := Qgtb totalAllocationPercentage 100.

Definition isOverCommitted (s : Store) : bool :=
  Qgtb (commitRatio bucket bucketResourcesAllocated
                    bucketCommittedResourcesAllocated s * 100)%Q
       maxCommittedPercentage.

End Component.

Lemma keepsArrays_refl s : keepsArrays s s.
Proof. intros l objs H. exact H. Qed.

Lemma keepsArrays_trans s1 s2 s3 :
  keepsArrays s1 s2 -> keepsArrays s2 s3 -> keepsArrays s1 s3.
Proof. intros H12 H23 l objs H. apply H23, H12, H. Qed.

Lemma emptyArray_keeps s : keepsArrays s (snd (emptyArray s)).
Proof.
  intros l objs H. unfold emptyArray. simpl.
  rewrite lookup_insert_ne; [exact H|].
  intros <-. pose proof (is_fresh (dom (arrays s))) as F.
  apply not_elem_of_dom in F. congruence.
Qed.

Lemma first_split_unique (x : nat) l1 l2 l1' l2' :
  (l1 ++ x :: l2)%list = (l1' ++ x :: l2')%list ->
  ~ In x l1 -> ~ In x l1' -> l1 = l1' /\ l2 = l2'.
Proof.
  revert l1'. induction l1 as [|a l1 IH]; intros [|a' l1'] E N N'; simpl in *.
  - injection E as ->. auto.
  - injection E as <- _. tauto.
  - injection E as -> _. tauto.
  - injection E as <- E. destruct (IH l1' E) as [-> ->]; [tauto|tauto|auto].
Qed.

(** X1: [edit] never touches the objectives.  With editing enabled and a
    dialog that closes with an edited bucket it emits the pair of the bucket
    and a new bucket that has the dialog's name and percentage and the very
    objectives array of the original, whatever objectives the dialog's
    bucket carries; with editing disabled, or a dismissed dialog, it emits
    nothing.  In every case the arrays of the store keep their elements. *)
Theorem edit_keeps_the_objectives
    (bucket : Bucket) (isEditingEnabled : bool)
    (dialog : Bucket -> option Bucket) (s : Store) :
  let s' := snd (edit bucket isEditingEnabled dialog s) in
  keepsArrays s s'
  /\ (isEditingEnabled = false -> s' = s)
  /\ (isEditingEnabled = true ->
      exists draft,
        arrays s !! objectives draft = None
        /\ displayName draft = displayName bucket
        /\ allocationPercentage draft = allocationPercentage bucket
        /\ match dialog draft with
           | None => onChanged s' = onChanged s
           | Some editedBucket =>
               onChanged s' =
               (onChanged s ++
                [(bucket,
                  {| displayName := displayName editedBucket;
                     allocationPercentage := allocationPercentage editedBucket;
                     objectives := objectives bucket |})])%list
           end).
Proof.
  cbv zeta. unfold edit. destruct isEditingEnabled; simpl.
  - unfold bind. simpl.
    set (draft := {| displayName := displayName bucket;
                     allocationPercentage := allocationPercentage bucket;
                     objectives := fresh (dom (arrays s)) |}).
    assert (K : keepsArrays s (snd (emptyArray s))) by apply emptyArray_keeps.
    split; [|split; [discriminate|]].
    + destruct (dialog draft); exact K.
    + intros _. exists draft. split.
      { apply not_elem_of_dom. apply is_fresh. }
      split; [reflexivity|]. split; [reflexivity|].
      destruct (dialog draft); reflexivity.
  - split; [apply keepsArrays_refl|]. split; [reflexivity|discriminate].
Qed.

Lemma moveObjective_run (bucket newBucket : Bucket) original newObjective s :
  moveObjective bucket original newObjective newBucket s
  = (newObjectives <- spread (objectives newBucket) ;;
     mutate (fun a => a ++ [newObjective])%list newObjectives ;;
     emit (newBucket, withObjectives newBucket newObjectives))
      (snd (deleteObjective bucket original s)).
Proof.
  unfold moveObjective. unfold bind at 1.
  now destruct (deleteObjective bucket original s) as [[] s1].
Qed.

(** X2: [moveObjective] emits two events, in this order: the pair of the
    bucket and a copy without the first occurrence of the original objective
    (which is in the bucket), then the pair of the target bucket and a copy
    of it with the new objective appended.  The second copy is made from the
    target as it was before the call, also when the target is the bucket
    itself.  Both copies are new arrays and the arrays of the store keep
    their elements. *)
Theorem moveObjective_emits_removal_then_addition
    (bucket newBucket : Bucket) (s : Store)
    (objs targetObjs l1 l2 : list nat) (original newObjective : nat)
    (Hobjs : arrays s !! objectives bucket = Some objs)
    (Htarget : arrays s !! objectives newBucket = Some targetObjs)
    (Hsplit : objs = (l1 ++ original :: l2)%list)
    (Hfirst : ~ In original l1) :
  let s' := snd (moveObjective bucket original newObjective newBucket s) in
  exists from to,
    onChanged s' = (onChanged s ++ [(bucket, from); (newBucket, to)])%list
    /\ displayName from = displayName bucket
    /\ allocationPercentage from = allocationPercentage bucket
    /\ displayName to = displayName newBucket
    /\ allocationPercentage to = allocationPercentage newBucket
    /\ arrays s !! objectives from = None
    /\ arrays s !! objectives to = None
    /\ arrays s' !! objectives from = Some (l1 ++ l2)%list
    /\ arrays s' !! objectives to = Some (targetObjs ++ [newObjective])%list
    /\ keepsArrays s s'.
Proof.
  cbv zeta. rewrite moveObjective_run.
  assert (E1 : emitsEdited bucket s (snd (deleteObjective bucket original s))
                           (l1 ++ l2)%list).
  { rewrite (deleteObjective_run _ _ _ _ Hobjs), Hsplit.
    rewrite findIndex_first by exact Hfirst.
    rewrite <- (splice_one_at l1 original l2).
    apply copy_change_emit. now rewrite <- Hsplit. }
  set (s1 := snd (deleteObjective bucket original s)) in *.
  destruct E1 as (from & Ev1 & N1 & P1 & F1 & A1 & K1).
  pose proof (copy_change_emit newBucket (fun a => a ++ [newObjective])%list
                s1 targetObjs (K1 _ _ Htarget)) as E2.
  destruct E2 as (to & Ev2 & N2 & P2 & F2 & A2 & K2).
  exists from, to. rewrite Ev2, Ev1, <- app_assoc. simpl.
  repeat (split; [assumption || reflexivity|]).
  split.
  - destruct (arrays s !! objectives to) as [os|] eqn:L; [|reflexivity].
    apply K1 in L. congruence.
  - split; [now apply K2|]. split; [exact A2|].
    eapply keepsArrays_trans; eauto.
Qed.

(** X3: [reorderDrop] emits nothing when the two indices of the drop are
    equal, and otherwise emits the pair of the bucket and a new bucket, same
    name and percentage, whose objectives are what [moveItemInArray] makes of
    a copy of the original ones.  In both cases the arrays of the store keep
    their elements. *)
Theorem reorderDrop_emits_when_indices_differ
    (moveItemInArray : list nat -> Z -> Z -> list nat)
    (bucket : Bucket) (s : Store) (objs : list nat)
    (previousIndex currentIndex : Z)
    (Hobjs : arrays s !! objectives bucket = Some objs) :
  let s' := snd (reorderDrop bucket moveItemInArray previousIndex currentIndex s) in
  (previousIndex = currentIndex -> onChanged s' = onChanged s /\ keepsArrays s s')
  /\ (previousIndex <> currentIndex ->
      emitsEdited bucket s s' (moveItemInArray objs previousIndex currentIndex)).
Proof.
  cbv zeta. unfold reorderDrop. split.
  - intros ->. rewrite Z.eqb_refl. simpl.
    unfold bind, spread, mutate, ret. simpl. split; [reflexivity|].
    intros l os Hl.
    assert (l <> fresh (dom (arrays s))).
    { intros ->. pose proof (is_fresh (dom (arrays s))) as F.
      apply not_elem_of_dom in F. congruence. }
    simpl. rewrite lookup_alter_ne, lookup_insert_ne by congruence. exact Hl.
  - intros N. apply Z.eqb_neq in N. rewrite N. simpl.
    apply (copy_change_emit bucket
             (fun a => moveItemInArray a previousIndex currentIndex) s objs Hobjs).
Qed.

(** X4: deleting undoes adding.  When the objective that [addObjective]
    appended was not in the bucket before, [deleteObjective] of it, on the
    bucket that [addObjective] emitted, announces the objectives the bucket
    had at the start. *)
Theorem deleteObjective_undoes_addObjective
    (bucket : Bucket) (s : Store) (objs : list nat) (objective : nat)
    (Hobjs : arrays s !! objectives bucket = Some objs)
    (Hnew : ~ In objective objs) :
  let s1 := snd (addObjective bucket true (Some objective) s) in
  forall added,
    last (onChanged s1) = Some (bucket, added) ->
    emitsEdited added s1 (snd (deleteObjective added objective s1)) objs.
Proof.
  cbv zeta. intros added Hlast.
  pose proof (copy_change_emit bucket (fun a => a ++ [objective])%list
                s objs Hobjs) as E.
  change (snd ((newObjectives <- spread (objectives bucket) ;;
                mutate (fun a => a ++ [objective])%list newObjectives ;;
                emit (bucket, withObjectives bucket newObjectives)) s))
    with (snd (addObjective bucket true (Some objective) s)) in E.
  destruct E as (nb & Ev & _ & _ & _ & A & _).
  rewrite Ev, last_snoc in Hlast. injection Hlast as <-.
  rewrite (deleteObjective_run _ _ _ _ A).
  rewrite findIndex_first by exact Hnew.
  pose proof (copy_change_emit nb (splice (Z.of_nat (List.length objs)) 1)
                _ _ A) as C.
  rewrite splice_one_at, app_nil_r in C. exact C.
Qed.

(** X5: a change is undone by the reverse change.  When [original] is in
    the bucket and [newObjective] is not, [onObjectiveChanged] from
    [newObjective] back to [original], on the bucket that the first change
    emitted, announces the objectives the bucket had at the start. *)
Theorem onObjectiveChanged_back_restores
    (bucket : Bucket) (s : Store) (objs : list nat)
    (original newObjective : nat)
    (Hobjs : arrays s !! objectives bucket = Some objs)
    (Hin : In original objs)
    (Hnew : ~ In newObjective objs) :
  let s1 := snd (onObjectiveChanged bucket original newObjective s) in
  forall changed,
    last (onChanged s1) = Some (bucket, changed) ->
    emitsEdited changed s1
      (snd (onObjectiveChanged changed newObjective original s1)) objs.
Proof.
  cbv zeta. intros changed Hlast.
  apply In_first_split in Hin as (l1 & l2 & E & Hfirst).
  assert (Hnew1 : ~ In newObjective l1).
  { intros H. apply Hnew. rewrite E. apply in_or_app. now left. }
  pose proof (copy_change_emit bucket
                (assignAt (findIndex (fun o => Nat.eqb o original) objs)
                          newObjective) s objs Hobjs) as C.
  rewrite <- (onObjectiveChanged_run _ _ _ _ _ Hobjs) in C.
  destruct C as (nb & Ev & _ & _ & _ & A & _).
  rewrite Ev, last_snoc in Hlast. injection Hlast as <-.
  rewrite E, findIndex_first, assignAt_at in A by exact Hfirst.
  rewrite (onObjectiveChanged_run _ _ _ _ _ A).
  rewrite findIndex_first by exact Hnew1.
  pose proof (copy_change_emit nb
                (assignAt (Z.of_nat (List.length l1)) original) _ _ A) as C.
  rewrite assignAt_at, <- E in C. exact C.
Qed.

End BucketEditing.

(** ** The commitment ratios stay between 0 and 1 *)

Lemma ratio_within_unit (c t : Q) :
  (0 <= c)%Q -> (c <= t)%Q -> ~ (t == 0)%Q ->
  (0 <= c / t)%Q /\ (c / t <= 1)%Q.
Proof.
  intros Hc Hct Ht.
  assert (Hpos : (0 < t)%Q).
  { destruct (Qlt_le_dec 0 t) as [H|H]; [exact H|].
    exfalso. apply Ht. lra. }
  split.
  - apply Qle_shift_div_l; [exact Hpos|lra].
  - apply Qle_shift_div_r; [exact Hpos|lra].
Qed.

(** X6: when the committed resources of a bucket lie between 0 and the
    resources allocated, [commitRatio] lies between 0 and 1, and the bucket
    is not over-committed for any maximum of 100 percent or more. *)
Theorem bucket_commitRatio_within_unit
    (bucket : BucketComponent.Bucket) (maxCommittedPercentage : Q)
    (bucketResourcesAllocated bucketCommittedResourcesAllocated :
       BucketComponent.Store -> BucketComponent.Bucket -> Q)
    (s : BucketComponent.Store)
    (Hcommitted : (0 <= bucketCommittedResourcesAllocated s bucket)%Q)
    (Hbelow : (bucketCommittedResourcesAllocated s bucket
               <= bucketResourcesAllocated s bucket)%Q) :
  let ratio :=
    BucketComponent.commitRatio
      bucket bucketResourcesAllocated bucketCommittedResourcesAllocated s in
  (0 <= ratio)%Q /\ (ratio <= 1)%Q
  /\ ((100 <= maxCommittedPercentage)%Q ->
      BucketEditing.isOverCommitted
        bucket maxCommittedPercentage
        bucketResourcesAllocated bucketCommittedResourcesAllocated s = false).
Proof.
  cbv zeta.
  assert (B : (0 <= BucketComponent.commitRatio bucket bucketResourcesAllocated
                     bucketCommittedResourcesAllocated s)%Q
              /\ (BucketComponent.commitRatio bucket bucketResourcesAllocated
                    bucketCommittedResourcesAllocated s <= 1)%Q).
  { unfold BucketComponent.commitRatio, BucketComponent.resourcesAllocated,
      BucketComponent.committedResourcesAllocated.
    destruct (Qeq_bool (bucketResourcesAllocated s bucket) 0) eqn:E; simpl.
    - split; lra.
    - apply Qeq_bool_neq in E. now apply ratio_within_unit. }
  destruct B as [B0 B1]. split; [exact B0|]. split; [exact B1|].
  intros Hmax. unfold BucketEditing.isOverCommitted, Qgtb.
  apply negb_false_iff. apply Qle_bool_iff. lra.
Qed.

(** X7: when the committed allocation of a person lies between 0 and the
    person's total allocation, [personCommitFraction] lies between 0 and
    1. *)
Theorem personCommitFraction_within_unit
    (peopleAllocations peopleCommittedAllocations : gmap string Q)
    (person : Person.t)
    (Hcommitted :
       (0 <= nonNull 0 (peopleCommittedAllocations !! Person.id person))%Q)
    (Hbelow :
       (nonNull 0 (peopleCommittedAllocations !! Person.id person)
        <= PeopleComponent.personAllocated peopleAllocations person)%Q) :
  (0 <= PeopleComponent.personCommitFraction
          peopleAllocations peopleCommittedAllocations person)%Q
  /\ (PeopleComponent.personCommitFraction
        peopleAllocations peopleCommittedAllocations person <= 1)%Q.
Proof.
  unfold PeopleComponent.personCommitFraction.
  destruct (Qeq_bool (PeopleComponent.personAllocated peopleAllocations person) 0)
    eqn:E.
  - split; lra.
  - apply Qeq_bool_neq in E.
    replace (if rm_has peopleCommittedAllocations (Person.id person)
             then nonNull 0%Q (peopleCommittedAllocations !! Person.id person)
             else 0%Q)
      with (nonNull 0%Q (peopleCommittedAllocations !! Person.id person)).
    + now apply ratio_within_unit.
    + unfold rm_has.
      now destruct (peopleCommittedAllocations !! Person.id person).
Qed.

(** ** Strings in code-unit order: [a < b] on strings *)

Lemma string_leb_iff (a b : string) :
  String.leb a b = true <-> a = b \/ OrderedTypeEx.String_as_OT.lt a b.
Proof.
  unfold String.leb.
  rewrite <- OrderedTypeEx.String_as_OT.cmp_eq, <- OrderedTypeEx.String_as_OT.cmp_lt.
  unfold OrderedTypeEx.String_as_OT.cmp.
  destruct (String.compare a b); split; intros H; auto; try discriminate.
  destruct H; discriminate.
Qed.

Lemma string_leb_trans (a b c : string) :
  String.leb a b = true -> String.leb b c = true -> String.leb a c = true.
Proof.
  rewrite !string_leb_iff. intros [->|H1] [->|H2]; auto.
  right. eapply OrderedTypeEx.String_as_OT.lt_trans; eauto.
Qed.

Lemma string_ltb_leb (a b : string) :
  String.ltb a b = true -> String.leb a b = true.
Proof.
  unfold String.ltb, String.leb. now destruct (String.compare a b).
Qed.

Lemma string_not_ltb_leb (a b : string) :
  String.ltb a b = false -> String.leb b a = true.
Proof.
  unfold String.ltb, String.leb. rewrite (String.compare_antisym a b).
  now destruct (String.compare b a).
Qed.

Lemma string_leb_empty (a : string) : String.leb a "" = true -> a = ""%string.
Proof. destruct a; [reflexivity|discriminate]. Qed.

(** ** EditPersonDialog *)

Module EditPersonDialog.

Record EditPersonDialogData := {
  person : Person.t;
  unit : string;
  title : string;
  okAction : string;
  allowCancel : bool;
  allowDelete : bool;
  showDeleteConfirm : bool;
  allowUsernameEdit : bool;
  existingUserIDs : list string;
  (** whether an [onDelete] emitter was given *)
  onDelete : bool;
}.



(** [dialogRef.close(newPerson)] with the values of the three controls. *)
Definition onOK (userId displayName : string) (availability : Q)
  : option Person.t :=
  Some (Person.mk userId displayName availability).

(** [dialogRef.close()] *)
Definition onCancel : option Person.t := None.

Definition withDeleteFlags (data : EditPersonDialogData)
    (allow confirm : bool) : EditPersonDialogData :=
  {| person := person data; unit := unit data; title := title data;
     okAction := okAction data; allowCancel := allowCancel data;
     allowDelete := allow; showDeleteConfirm := confirm;
     allowUsernameEdit := allowUsernameEdit data;
     existingUserIDs := existingUserIDs data; onDelete := onDelete data |}.

Definition delete (data : EditPersonDialogData) : EditPersonDialogData :=
  withDeleteFlags data false true.

Definition cancelDelete (data : EditPersonDialogData) : EditPersonDialogData :=
  withDeleteFlags data true false.

(** [this.data.onDelete!.emit(this.data.person); this.dialogRef.close(false)]:
    the person emitted on [onDelete] and the value the dialog closes with
    ([false], which a subscriber reads as no person), or nothing when the
    call fails because no emitter was given. *)
Definition confirmDelete (data : EditPersonDialogData)
  : option (Person.t * option Person.t) :=
  if onDelete data then Some (person data, None) else None.

(** A click on one of the two buttons. *)
Inductive Click := ClickDelete | ClickCancelDelete.

Definition click (data : EditPersonDialogData) (c : Click)
  : EditPersonDialogData :=
  match c with
  | ClickDelete => delete data
  | ClickCancelDelete => cancelDelete data
  end.

(** X11: after any sequence of [delete()] and [cancelDelete()] that is not
    empty, exactly one of [allowDelete] and [showDeleteConfirm] is set,
    [showDeleteConfirm] exactly when the last call was [delete()], and no
    other field of the dialog's data has changed; [cancelDelete()] right
    after [delete()] gives back data in which deleting was allowed and no
    confirmation was shown. *)
Theorem delete_and_cancelDelete_toggle
    (data : EditPersonDialogData) (clicks : list Click) (lastClick : Click) :
  let data' := fold_left click (clicks ++ [lastClick])%list data in
  allowDelete data' = negb (showDeleteConfirm data')
  /\ showDeleteConfirm data' =
       match lastClick with ClickDelete => true | ClickCancelDelete => false end
  /\ data' = withDeleteFlags data (allowDelete data') (showDeleteConfirm data')
  /\ (allowDelete data = true -> showDeleteConfirm data = false ->
      cancelDelete (delete data) = data).
Proof.
  cbv zeta. rewrite fold_left_app. simpl.
  assert (K : forall d, fold_left click clicks d
                = withDeleteFlags d (allowDelete (fold_left click clicks d))
                    (showDeleteConfirm (fold_left click clicks d))).
  { induction clicks as [|c cs IH]; intros d; simpl.
    - now destruct d.
    - rewrite IH at 1. now destruct c. }
  split; [now destruct lastClick|]. split; [now destruct lastClick|]. split.
  - rewrite (K data) at 1. now destruct lastClick.
  - intros A C. destruct data. simpl in A, C. subst. reflexivity.
Qed.

End EditPersonDialog.

(** ** PeopleComponent: the table and the editing operations *)

Module PersonData.
Record t := mk {
  personDesc : string;
  availability : Q;
  allocated : Q;
  unallocated : Q;
  assignmentCount : Q;
  commitFraction : Q;
  isOverallocated : bool;
  person : Person.t;
}.
End PersonData.

Module PeopleEditing.
Import PeopleComponent.

Section Component.
Variable people : list Person.t.
Variable peopleAllocations : gmap string Q.
Variable peopleCommittedAllocations : gmap string Q.
Variable peopleAssignmentCounts : gmap string Q.
Variable totalUnallocated : Q.
Variable unit : string.
Variable isEditingEnabled : bool.
(** [personDisplayNameWithUsername] is imported from [../person]. *)
Variable personDisplayNameWithUsername : Person.t -> string.
(** [p === person] on objects: whether the two are the same object. *)
Variable sameObject : Person.t -> Person.t -> bool.

Definition personAssignmentCount (person : Person.t) : Q :=
  if rm_has peopleAssignmentCounts (Person.id person)
  then nonNull 0%Q (peopleAssignmentCounts !! Person.id person)
  else 0%Q.

(** The rows that [tableData] hands to the data source. *)
Definition tableData : list PersonData.t :=
  map (fun p =>
         PersonData.mk
           (personDisplayNameWithUsername p)
           (Person.availability p)
           (personAllocated peopleAllocations p)
           (personUnallocated peopleAllocations p)
           (personAssignmentCount p)
           (personCommitFraction peopleAllocations peopleCommittedAllocations p)
           (isPersonOverallocated peopleAllocations p)
           p)
      people.

Definition isTeamOverallocated : bool := Qgtb 0 totalUnallocated.

(** [(a, b) => a.id < b.id ? -1 : (a.id > b.id ? 1 : 0)] *)
Definition compareIds (a b : Person.t) : Q :=
  if String.ltb (Person.id a) (Person.id b) then (-1)%Q
  else if String.ltb (Person.id b) (Person.id a) then 1%Q
  else 0%Q.

(** [new Person('', '', this.defaultPersonAvailability())] *)
Definition blankPerson : Person.t :=
  Person.mk "" "" (defaultPersonAvailability people).

Definition addPersonDialogData : EditPersonDialog.EditPersonDialogData :=
  {| EditPersonDialog.person := blankPerson;
     EditPersonDialog.unit := unit;
     EditPersonDialog.title := "Add person";
     EditPersonDialog.okAction := "Add";
     EditPersonDialog.existingUserIDs := map Person.id people;
     EditPersonDialog.allowCancel := true;
     EditPersonDialog.allowDelete := false;
     EditPersonDialog.showDeleteConfirm := false;
     EditPersonDialog.allowUsernameEdit := true;
     EditPersonDialog.onDelete := false |}.

(** [dialog] is the person dialog: from the data it is opened on to the
    value it closes with, when that value is a person.  The result is what
    [onChanged] emits. *)
Definition addPerson
    (dialog : EditPersonDialog.EditPersonDialogData -> option Person.t)
  : list (list Person.t) :=
  if negb isEditingEnabled then []
  else
    let person := blankPerson in
    match dialog addPersonDialogData with
    | Some newPerson =>
        let newPeople := js_sort compareIds (people ++ [person])%list in
        [newPeople]
    | None => []
    end.

Definition editPersonDialogData (person : Person.t)
  : EditPersonDialog.EditPersonDialogData :=
  {| EditPersonDialog.person := person;
     EditPersonDialog.unit := unit;
     EditPersonDialog.title :=
       String.append "Edit person "
         (String.append (String (Ascii.ascii_of_nat 34) (Person.id person))
                        (String (Ascii.ascii_of_nat 34) ""));
     EditPersonDialog.okAction := "OK";
     EditPersonDialog.existingUserIDs := [];
     EditPersonDialog.allowCancel := false;
     EditPersonDialog.allowDelete := true;
     EditPersonDialog.showDeleteConfirm := false;
     EditPersonDialog.allowUsernameEdit := false;
     EditPersonDialog.onDelete := true |}.

(** [person] may be missing ([!person]). *)
Definition editPerson (person : option Person.t)
    (dialog : EditPersonDialog.EditPersonDialogData -> option Person.t)
  : list (list Person.t) :=
  match person with
  | None => []
  | Some person =>
      if negb isEditingEnabled then []
      else
        match dialog (editPersonDialogData person) with
        | Some newPerson =>
            let newPeople :=
              map (fun p => if sameObject p person then newPerson else p) people in
            [newPeople]
        | None => []
        end
  end.

End Component.

Lemma compareIds_sorted (l : list Person.t) :
  StronglySorted
    (fun a b => String.leb (Person.id a) (Person.id b) = true)
    (js_sort compareIds l).
Proof.
  apply js_sort_sorted; unfold stays_before, compareIds.
  - intros a b.
    destruct (String.ltb (Person.id a) (Person.id b)) eqn:L.
    + intros _. now apply string_ltb_leb.
    + destruct (String.ltb (Person.id b) (Person.id a)) eqn:G;
        [discriminate|].
      intros _. now apply string_not_ltb_leb.
  - intros a b.
    destruct (String.ltb (Person.id a) (Person.id b)) eqn:L; [discriminate|].
    intros _. now apply string_not_ltb_leb.
  - intros a b c. apply string_leb_trans.
Qed.

(** X8: [tableData] has one row per person, in the order of the people, and
    in every row the availability is the person's, [unallocated] is the
    availability minus [allocated], [isOverallocated] is set exactly when
    [unallocated] is negative, and [commitFraction] is 0 when nothing is
    allocated. *)
Theorem tableData_rows_are_consistent
    (people : list Person.t)
    (peopleAllocations peopleCommittedAllocations peopleAssignmentCounts :
       gmap string Q)
    (personDisplayNameWithUsername : Person.t -> string) :
  let rows := tableData people peopleAllocations peopleCommittedAllocations
                        peopleAssignmentCounts personDisplayNameWithUsername in
  map PersonData.person rows = people
  /\ forall row, In row rows ->
       PersonData.availability row = Person.availability (PersonData.person row)
       /\ PersonData.personDesc row
          = personDisplayNameWithUsername (PersonData.person row)
       /\ PersonData.unallocated row
          = (PersonData.availability row - PersonData.allocated row)%Q
       /\ (PersonData.isOverallocated row = true <->
           (PersonData.unallocated row < 0)%Q)
       /\ ((PersonData.allocated row == 0)%Q ->
           PersonData.commitFraction row = 0%Q).
Proof.
  cbv zeta. unfold tableData. split.
  - rewrite map_map. simpl. apply map_id.
  - intros row Hin. apply in_map_iff in Hin as (p & <- & _). simpl.
    split; [reflexivity|]. split; [reflexivity|]. split; [reflexivity|]. split.
    + unfold isPersonOverallocated, personUnallocated, Qgtb.
      rewrite negb_true_iff. split.
      * intros H.
        destruct (Qlt_le_dec (Person.availability p)
                    (personAllocated peopleAllocations p)) as [L|L]; [lra|].
        apply Qle_bool_iff in L. congruence.
      * intros H. destruct (Qle_bool _ _) eqn:E; [|reflexivity].
        apply Qle_bool_iff in E. lra.
    + intros E. unfold personCommitFraction.
      apply Qeq_bool_iff in E. now rewrite E.
Qed.

(** X9: [addPerson] emits nothing when editing is disabled or the dialog
    closes without a person.  Otherwise it emits one list: the people and
    the person the dialog was opened on (empty id, empty name, the default
    availability), sorted in ascending order of id; the person the dialog
    closed with is not used.  As the empty id is the least, the list starts
    with a person of empty id. *)
Theorem addPerson_emits_sorted_with_blank
    (people : list Person.t) (isEditingEnabled : bool) (unit : string)
    (dialog : EditPersonDialog.EditPersonDialogData -> option Person.t) :
  let data := addPersonDialogData people unit in
  let emitted := addPerson people unit isEditingEnabled dialog in
  (isEditingEnabled = false -> emitted = [])
  /\ (dialog data = None -> emitted = [])
  /\ (isEditingEnabled = true -> dialog data <> None ->
      exists first rest,
        emitted = [first :: rest]
        /\ Person.id first = ""%string
        /\ Permutation (first :: rest) (people ++ [blankPerson people])
        /\ StronglySorted
             (fun a b => String.leb (Person.id a) (Person.id b) = true)
             (first :: rest)).
Proof.
  cbv zeta. unfold addPerson. split; [now intros ->|]. split.
  - intros ->. now destruct isEditingEnabled.
  - intros -> Hsome. simpl.
    destruct (dialog (addPersonDialogData people unit)) as [newPerson|];
      [|congruence].
    pose proof (js_sort_perm compareIds (people ++ [blankPerson people])) as P.
    pose proof (compareIds_sorted (people ++ [blankPerson people])) as S.
    destruct (js_sort compareIds (people ++ [blankPerson people]))
      as [|first rest] eqn:E.
    { apply Permutation_nil in P. now destruct people. }
    exists first, rest. split; [reflexivity|]. split; [|split; [exact P|exact S]].
    assert (Hin : In (blankPerson people) (first :: rest)).
    { apply (Permutation_in _ (Permutation_sym P)). apply in_or_app.
      right. now left. }
    apply StronglySorted_inv in S as [_ Hall].
    destruct Hin as [->|Hin]; [reflexivity|].
    rewrite List.Forall_forall in Hall. specialize (Hall _ Hin).
    simpl in Hall. now apply string_leb_empty.
Qed.


(** X12: confirming the deletion in the dialog that [editPerson] opens
    hands the edited person to [onDelete] and closes the dialog without a
    person, so that [editPerson] emits no change of the people; the dialog
    that [addPerson] opens has no [onDelete] emitter, and the call fails
    there. *)
Theorem confirmDelete_emits_no_change
    (people : list Person.t) (unit : string) (isEditingEnabled : bool)
    (sameObject : Person.t -> Person.t -> bool) (person : Person.t) :
  let closing data :=
    match EditPersonDialog.confirmDelete data with
    | Some (_, closedWith) => closedWith
    | None => None
    end in
  EditPersonDialog.confirmDelete (editPersonDialogData unit person)
    = Some (person, None)
  /\ editPerson people unit isEditingEnabled sameObject (Some person) closing = []
  /\ EditPersonDialog.confirmDelete (addPersonDialogData people unit) = None.
Proof.
  cbv zeta. split; [reflexivity|]. split; [|reflexivity].
  unfold editPerson. now destruct isEditingEnabled.
Qed.

End PeopleEditing.

(** ** AssignmentsClassifyComponent: [objectivesByClass] and the sizes of
    the classes *)

(** The number of values held by the entries of a map of arrays. *)
Definition heldValues {K X : Type} (m : list (K * list X)) : nat :=
  list_sum (map (fun e => List.length (snd e)) m).

Lemma om_set_heldValues {X : Type} (k : string) (v : list X) m :
  (heldValues (om_set String.eqb k v m)
   + match om_get String.eqb k m with
     | Some xs => List.length xs
     | None => 0
     end
   = heldValues m + List.length v)%nat.
Proof.
  unfold heldValues. induction m as [|[k1 v1] m IH]; simpl; [lia|].
  destruct (String.eqb k1 k); simpl; lia.
Qed.

Lemma om_push_heldValues {X : Type} (k : string) (x : X) m :
  heldValues (om_push k x m) = S (heldValues m).
Proof.
  unfold om_push, om_has.
  destruct (om_get String.eqb k m) as [xs|] eqn:E.
  - pose proof (om_set_heldValues k (xs ++ [x])%list m) as H.
    rewrite E, length_app in H. simpl in H. lia.
  - pose proof (om_set_heldValues k [x] m) as H.
    rewrite E in H. simpl in H. lia.
Qed.

Lemma pushAll_heldValues {X : Type} (kxs : list (string * X)) m :
  heldValues (pushAll kxs m) = (heldValues m + List.length kxs)%nat.
Proof.
  unfold pushAll. revert m.
  induction kxs as [|[k x] kxs IH]; intros m; simpl; [lia|].
  rewrite IH, om_push_heldValues. lia.
Qed.

Lemma heldValues_perm {K X : Type} (m m' : list (K * list X)) :
  Permutation m m' -> heldValues m = heldValues m'.
Proof.
  unfold heldValues. induction 1; simpl; lia.
Qed.

(** All the values held by the entries of a map of arrays, entry by
    entry. *)
Definition allValues {K X : Type} (m : list (K * list X)) : list X :=
  concat (map snd m).

Lemma heldValues_allValues {K X : Type} (m : list (K * list X)) :
  heldValues m = List.length (allValues m).
Proof.
  unfold heldValues, allValues. induction m as [|e m IH]; simpl; [reflexivity|].
  rewrite length_app. lia.
Qed.

Lemma om_push_other {X : Type} (k k1 : string) (x : X) v1 m :
  String.eqb k1 k = false ->
  om_push k x ((k1, v1) :: m) = (k1, v1) :: om_push k x m.
Proof.
  intros E. unfold om_push, om_has. simpl. rewrite E.
  now destruct (om_get String.eqb k m).
Qed.

Lemma om_push_allValues {X : Type} (k : string) (x : X) m :
  Permutation (allValues (om_push k x m)) (x :: allValues m).
Proof.
  induction m as [|[k1 v1] m IH]; [reflexivity|].
  destruct (String.eqb k1 k) eqn:E.
  - assert (S : om_push k x ((k1, v1) :: m) = (k1, (v1 ++ [x])%list) :: m).
    { unfold om_push, om_has. simpl. rewrite ?E. simpl. now rewrite ?E. }
    rewrite S. unfold allValues. simpl.
    rewrite <- app_assoc. simpl. symmetry. apply Permutation_middle.
  - rewrite (om_push_other _ _ _ _ _ E). unfold allValues in *. simpl.
    rewrite IH. symmetry. apply Permutation_middle.
Qed.

Lemma pushAll_allValues {X : Type} (kxs : list (string * X)) m :
  Permutation (allValues (pushAll kxs m)) (allValues m ++ map snd kxs).
Proof.
  unfold pushAll. revert m.
  induction kxs as [|[k x] kxs IH]; intros m; simpl.
  - now rewrite app_nil_r.
  - rewrite IH, om_push_allValues. simpl. apply Permutation_middle.
Qed.

Lemma allValues_perm {K X : Type} (m m' : list (K * list X)) :
  Permutation m m' -> Permutation (allValues m) (allValues m').
Proof.
  unfold allValues. induction 1 as [|e m m' P IH|e e' m|m1 m2 m3 P1 IH1 P2 IH2];
    simpl.
  - reflexivity.
  - now apply Permutation_app_head.
  - apply Permutation_app_swap_app.
  - now transitivity (concat (map snd m2)).
Qed.

Module AssignmentsClassifyViews.
Import AssignmentsClassifyComponent.

Inductive AggregateBy := Group | Tag.

Section Component.
Variable resourcesAllocated : Objective.t -> Q.
Variable totalResourcesAllocated : list Objective.t -> Q.
Variable localeCompare : string -> string -> Z.
Variable period : Period.t.
Variable aggregateBy : option AggregateBy.
Variable this_groupType : option string.

(** An [aggregateBy] that is neither of the two falls through the [switch]:
    an error is logged and the result is empty. *)
Definition objectivesByClass : list (string * list Objective.t) :=
  match aggregateBy with
  | Some Group =>
      objectivesByGroup resourcesAllocated totalResourcesAllocated
                        localeCompare period this_groupType
  | Some Tag => objectivesByTag resourcesAllocated localeCompare period
  | None => []
  end.

Definition classTrackBy (_index : Z) (classobj : string * list Objective.t)
  : string :=
  fst classobj.

Definition assignedResources (objective : Objective.t) : Q :=
  resourcesAllocated objective.

End Component.

Lemma sortEach_heldValues resourcesAllocated (m : list (string * list Objective.t)) :
  heldValues (sortEach resourcesAllocated m) = heldValues m.
Proof.
  unfold heldValues, sortEach. rewrite map_map. f_equal.
  apply map_ext. intros e. simpl.
  apply Permutation_length, js_sort_perm.
Qed.

Lemma classified_heldValues resourcesAllocated
    (cmp : string * list Objective.t -> string * list Objective.t -> Q)
    (kxs : list (string * Objective.t)) :
  heldValues (js_sort cmp (sortEach resourcesAllocated (pushAll kxs [])))
  = List.length kxs.
Proof.
  rewrite (heldValues_perm _ _ (js_sort_perm cmp _)).
  rewrite sortEach_heldValues, pushAll_heldValues. reflexivity.
Qed.

Lemma filed_In {X : Type} (k : string) (kxs : list (string * X)) x :
  In x (filed k kxs) -> In (k, x) kxs.
Proof.
  unfold filed. rewrite in_map_iff. intros ([k' x'] & E & Hin).
  simpl in E. subst x'. apply filter_In in Hin as [Hin Ek]. simpl in Ek.
  apply String.eqb_eq in Ek. now subst k'.
Qed.

(** X13: whatever [aggregateBy] and the collation are, the classes that
    [objectivesByClass] returns have distinct names, none of them is empty,
    each lists only objectives of the period, in descending order of
    [resourcesAllocated()]; without a supported [aggregateBy] there is no
    class at all. *)
Theorem objectivesByClass_classes_are_well_formed
    (resourcesAllocated : Objective.t -> Q)
    (totalResourcesAllocated : list Objective.t -> Q)
    (localeCompare : string -> string -> Z)
    (period : Period.t) (aggregateBy : option AggregateBy)
    (this_groupType : option string) :
  let result := objectivesByClass resourcesAllocated totalResourcesAllocated
                  localeCompare period aggregateBy this_groupType in
  (aggregateBy = None -> result = [])
  /\ List.NoDup (map fst result)
  /\ forall c obs, In (c, obs) result ->
       obs <> []
       /\ (forall o, In o obs -> In o (allObjectives period))
       /\ StronglySorted (descending resourcesAllocated) obs.
Proof.
  cbv zeta.
  assert (G : forall cmp (keys : Objective.t -> list (string * Objective.t)),
            (forall o k x, In (k, x) (keys o) -> x = o) ->
            let result :=
              js_sort cmp (sortEach resourcesAllocated
                             (pushAll (flat_map keys (allObjectives period)) []))
            in
            List.NoDup (map fst result)
            /\ forall c obs, In (c, obs) result ->
                 obs <> []
                 /\ (forall o, In o obs -> In o (allObjectives period))
                 /\ StronglySorted (descending resourcesAllocated) obs).
  { intros cmp keys Hkeys result.
    destruct (classified_entries resourcesAllocated cmp
                (flat_map keys (allObjectives period)))
      as (ND & Hk & He).
    fold result in ND, Hk, He. split; [exact ND|].
    intros c obs Hin. destruct (He _ _ Hin) as [P S].
    assert (Hne : filed c (flat_map keys (allObjectives period)) <> []).
    { apply Hk. apply in_map_iff. now exists (c, obs). }
    split; [|split; [|exact S]].
    - intros ->. apply Permutation_nil in P. contradiction.
    - intros o Ho. apply (Permutation_in _ P) in Ho.
      apply filed_In in Ho. apply in_flat_map in Ho as (o' & Ho' & Hin').
      now rewrite (Hkeys _ _ _ Hin'). }
  split; [now intros ->|].
  unfold objectivesByClass. destruct aggregateBy as [[|]|].
  - unfold objectivesByGroup. cbv zeta. rewrite obsByGroup_pushAll.
    apply G. intros o k x. unfold groupPairs.
    destruct (List.find _ _); simpl; [|tauto].
    intros [[= _ <-]|[]]. reflexivity.
  - unfold objectivesByTag. cbv zeta. rewrite obsByTag_pushAll.
    apply G. intros o k x. unfold tagPairs. rewrite in_map_iff.
    intros (t & [= _ <-] & _). reflexivity.
  - simpl. split; [constructor|]. intros c obs [].
Qed.

Lemma sortEach_allValues resourcesAllocated (m : list (string * list Objective.t)) :
  Permutation (allValues (sortEach resourcesAllocated m)) (allValues m).
Proof.
  unfold allValues, sortEach.
  induction m as [|e m IH]; simpl; [reflexivity|].
  apply Permutation_app; [apply js_sort_perm|exact IH].
Qed.

Lemma classified_allValues resourcesAllocated
    (cmp : string * list Objective.t -> string * list Objective.t -> Q)
    (kxs : list (string * Objective.t)) :
  Permutation
    (allValues (js_sort cmp (sortEach resourcesAllocated (pushAll kxs []))))
    (map snd kxs).
Proof.
  rewrite (allValues_perm _ _ (js_sort_perm cmp _)).
  rewrite sortEach_allValues, pushAll_allValues. reflexivity.
Qed.

(** The objectives that have a group of the component's type. *)
Definition withGroupOfType (this_groupType : option string)
    (objectives : list Objective.t) : list Objective.t :=
  List.filter
    (fun o => existsb (isOfGroupType this_groupType) (Objective.groups o))
    objectives.

(** Every objective, as many times as it has tags. *)
Definition oncePerTag (objectives : list Objective.t) : list Objective.t :=
  flat_map (fun o => repeat o (List.length (Objective.tags o))) objectives.

Lemma groupPairs_objectives this_groupType (objs : list Objective.t) :
  map snd (flat_map (groupPairs this_groupType) objs)
  = withGroupOfType this_groupType objs.
Proof.
  unfold withGroupOfType.
  induction objs as [|o objs IH]; simpl; [reflexivity|].
  rewrite map_app, IH. unfold groupPairs.
  assert (F : match List.find (isOfGroupType this_groupType) (Objective.groups o)
              with Some _ => true | None => false end
              = existsb (isOfGroupType this_groupType) (Objective.groups o)).
  { induction (Objective.groups o) as [|g gs IHg]; simpl; [reflexivity|].
    now destruct (isOfGroupType this_groupType g). }
  rewrite <- F.
  now destruct (List.find (isOfGroupType this_groupType) (Objective.groups o)).
Qed.

Lemma tagPairs_objectives (objs : list Objective.t) :
  map snd (flat_map tagPairs objs) = oncePerTag objs.
Proof.
  unfold oncePerTag.
  induction objs as [|o objs IH]; simpl; [reflexivity|].
  rewrite map_app, IH. f_equal. unfold tagPairs. rewrite map_map. simpl.
  induction (Objective.tags o) as [|t ts IHt]; simpl; congruence.
Qed.

Lemma oncePerTag_length (objs : list Objective.t) :
  List.length (oncePerTag objs)
  = list_sum (map (fun o => List.length (Objective.tags o)) objs).
Proof.
  unfold oncePerTag. induction objs as [|o objs IH]; simpl; [reflexivity|].
  now rewrite length_app, repeat_length, IH.
Qed.

(** X14: [objectivesByGroup] lists every objective that has a group of the
    component's type once, and no other.  All entries together are a
    rearrangement of the objectives of the period that have such a group
    (so they hold as many objectives as there are of these), and the entry
    of a name is a rearrangement of the objectives placed under that name,
    those whose first group of the component's type has that name. *)
Theorem objectivesByGroup_lists_each_grouped_objective_once
    (resourcesAllocated : Objective.t -> Q)
    (totalResourcesAllocated : list Objective.t -> Q)
    (localeCompare : string -> string -> Z)
    (period : Period.t) (this_groupType : option string) :
  let result := objectivesByGroup resourcesAllocated totalResourcesAllocated
                                  localeCompare period this_groupType in
  let grouped := withGroupOfType this_groupType (allObjectives period) in
  Permutation (allValues result) grouped
  /\ heldValues result = List.length grouped
  /\ forall g obs, In (g, obs) result ->
       Permutation obs (List.filter (placedUnderb this_groupType g)
                                    (allObjectives period))
       /\ forall o, In o obs -> placedUnder this_groupType o g.
Proof.
  cbv zeta. unfold objectivesByGroup. rewrite obsByGroup_pushAll.
  pose proof (classified_allValues resourcesAllocated
                (compareGroups totalResourcesAllocated localeCompare)
                (flat_map (groupPairs this_groupType) (allObjectives period)))
    as P.
  rewrite groupPairs_objectives in P.
  destruct (classified_entries resourcesAllocated
              (compareGroups totalResourcesAllocated localeCompare)
              (flat_map (groupPairs this_groupType) (allObjectives period)))
    as (_ & _ & He).
  split; [exact P|]. split.
  - rewrite heldValues_allValues. now apply Permutation_length.
  - intros g obs Hin. destruct (He _ _ Hin) as [Q _].
    rewrite filed_groupPairs in Q. split; [exact Q|].
    intros o Ho. apply (Permutation_in _ Q) in Ho.
    apply filter_In in Ho as [_ Ho]. now apply placedUnderb_iff.
Qed.

(** X15: [objectivesByTag] lists an objective once for each tag it carries,
    under the name of that tag.  All entries together are a rearrangement of
    the objectives of the period, each taken as many times as it has tags
    (so they hold as many objectives as the objectives have tags), and the
    entry of a name is a rearrangement of the objectives of the period, each
    taken once for each of its tags of that name. *)
Theorem objectivesByTag_lists_each_objective_once_per_tag
    (resourcesAllocated : Objective.t -> Q)
    (localeCompare : string -> string -> Z)
    (period : Period.t) :
  let result := objectivesByTag resourcesAllocated localeCompare period in
  Permutation (allValues result) (oncePerTag (allObjectives period))
  /\ heldValues result
     = list_sum (map (fun o => List.length (Objective.tags o))
                     (allObjectives period))
  /\ forall t obs, In (t, obs) result ->
       Permutation obs (flat_map (copiesFor t) (allObjectives period))
       /\ forall o, In o obs -> taggedWith o t.
Proof.
  cbv zeta. unfold objectivesByTag. rewrite obsByTag_pushAll.
  pose proof (classified_allValues resourcesAllocated (compareTags localeCompare)
                (flat_map tagPairs (allObjectives period))) as P.
  rewrite tagPairs_objectives in P.
  destruct (classified_entries resourcesAllocated (compareTags localeCompare)
              (flat_map tagPairs (allObjectives period)))
    as (_ & _ & He).
  split; [exact P|]. split.
  - rewrite heldValues_allValues, <- oncePerTag_length.
    now apply Permutation_length.
  - intros t obs Hin. destruct (He _ _ Hin) as [Q _].
    rewrite filed_tagPairs in Q. split; [exact Q|].
    intros o Ho. apply (Permutation_in _ Q) in Ho.
    apply in_flat_map in Ho as (o' & _ & Ho).
    now apply In_copiesFor in Ho as [-> T].
Qed.

End AssignmentsClassifyViews.

(** ** AssignmentsByPersonComponent: ties keep the order of the period *)

Lemma sort_insert_keeps_equals {A : Type} (key : A -> Q) (c : Q) (x : A) l :
  List.filter (fun y => Qeq_bool (key y) c)
              (sort_insert (fun a b => key b - key a)%Q x l)
  = List.filter (fun y => Qeq_bool (key y) c) (x :: l).
Proof.
  induction l as [|y l IH]; [reflexivity|].
  cbn [sort_insert]. destruct (stays_before _ x y) eqn:S; [reflexivity|].
  cbn [List.filter] in *. rewrite IH.
  destruct (Qeq_bool (key x) c) eqn:Ex, (Qeq_bool (key y) c) eqn:Ey;
    try reflexivity.
  exfalso. unfold stays_before in S.
  apply Qeq_bool_iff in Ex, Ey.
  assert (L : (key y - key x <= 0)%Q) by lra.
  apply Qle_bool_iff in L. congruence.
Qed.

Lemma js_sort_keeps_equals {A : Type} (key : A -> Q) (c : Q) (l : list A) :
  List.filter (fun y => Qeq_bool (key y) c)
              (js_sort (fun a b => key b - key a)%Q l)
  = List.filter (fun y => Qeq_bool (key y) c) l.
Proof.
  induction l as [|x l IH]; [reflexivity|].
  cbn [js_sort fold_right]. fold (js_sort (fun a b => key b - key a)%Q l).
  rewrite sort_insert_keeps_equals. cbn [List.filter]. now rewrite IH.
Qed.

Module AssignmentsByPersonOrder.
Import AssignmentsByPersonComponent.

(** X16: in the result of [assignmentsFor], the pairs with one and the same
    commitment stand in the order in which the period holds them (bucket by
    bucket, objective by objective, assignment by assignment): the sort
    only moves a pair behind pairs of greater commitment. *)
Theorem assignmentsFor_keeps_order_of_equal_commitments
    (period : Period.t) (person : Person.t) (c : Q) :
  List.filter (fun oa => Qeq_bool (commitment (assignment oa)) c)
              (assignmentsFor period person)
  = List.filter (fun oa => Qeq_bool (commitment (assignment oa)) c)
                (pairsOf period person).
Proof.
  unfold assignmentsFor.
  rewrite (js_sort_keeps_equals (fun oa => commitment (assignment oa))).
  now rewrite collected_pairsOf.
Qed.

End AssignmentsByPersonOrder.

(** ** StorageService: which requests share a URL *)

Lemma append_cons (x : Ascii.ascii) (a b : string) :
  String.append (String x a) b = String x (String.append a b).
Proof. reflexivity. Qed.

Lemma append_assoc_string (a b c : string) :
  String.append (String.append a b) c = String.append a (String.append b c).
Proof.
  induction a as [|x a IH]; [reflexivity|].
  rewrite !append_cons. now rewrite IH.
Qed.

Lemma append_cancel_l (s a b : string) :
  String.append s a = String.append s b -> a = b.
Proof.
  induction s as [|x s IH]; [auto|].
  rewrite !append_cons. intros [= E]. auto.
Qed.

Lemma append_empty_r (s a : string) : String.append s a = s <-> a = ""%string.
Proof.
  split.
  - induction s as [|x s IH]; [auto|].
    rewrite append_cons. intros [= E]. auto.
  - intros ->. induction s as [|x s IH]; [reflexivity|].
    rewrite append_cons. now rewrite IH.
Qed.

(** Whether a string has the character [/]. *)
Fixpoint hasSlash (s : string) : bool :=
  match s with
  | EmptyString => false
  | String c s' => Ascii.eqb c (Ascii.ascii_of_nat 47) || hasSlash s'
  end.

Lemma slash_separates (t1 t2 p1 p2 : string) :
  hasSlash t1 = false -> hasSlash t2 = false ->
  String.append t1 (String.append "/" p1)
  = String.append t2 (String.append "/" p2) ->
  t1 = t2 /\ p1 = p2.
Proof.
  revert t2. induction t1 as [|a t1 IH]; intros [|b t2];
    rewrite ?append_cons; cbn [hasSlash];
    change (String.append "" (String.append "/" p1))
      with (String (Ascii.ascii_of_nat 47) p1) in *;
    change (String.append "" (String.append "/" p2))
      with (String (Ascii.ascii_of_nat 47) p2) in *.
  - intros _ _ [= E]. auto.
  - intros _ H [= <- _]. discriminate.
  - intros H _ [= -> _]. discriminate.
  - intros H1 H2 [= <- E].
    apply orb_false_iff in H1 as [_ H1]. apply orb_false_iff in H2 as [_ H2].
    destruct (IH _ H1 H2 E) as [-> ->]. auto.
Qed.

Module StorageUrls.
Import StorageService.

(** X17: for teams, the URL of [getTeam] determines the team id, and is the
    URL of [getTeams] exactly for the empty id; [updateTeam] sends a team to
    the URL from which [getTeam] reads it, and [addTeam] posts to the URL
    from which [getTeams] reads the list. *)
Theorem team_urls
    (Team Period : Type) (team_id : Team -> string) (period_id : Period -> string) :
  let url c := url (request (Period := Period) team_id period_id c) in
  (forall a b, url (GetTeam a) = url (GetTeam b) -> a = b)
  /\ (forall a, url (GetTeam a) = url GetTeams <-> a = ""%string)
  /\ (forall team, url (UpdateTeam team) = url (GetTeam (team_id team)))
  /\ (forall team, url (AddTeam team) = url GetTeams).
Proof.
  cbv zeta. unfold request, getTeam, getTeams, updateTeam, addTeam.
  cbn [url]. split; [|split; [|split]]; try reflexivity.
  - intros a b. apply append_cancel_l.
  - intros a. apply (append_empty_r "/api/team/" a).
Qed.

(** X18: for periods, the URL of [getPeriod] determines the team id and the
    period id when neither team id contains a [/], and not in general: the
    ids are put into the path as they are, so that team [a/b] with period
    [c] and team [a] with period [b/c] share a URL.  It is the URL of
    [getPeriods] exactly for the empty period id; [updatePeriod] sends a
    period to the URL from which [getPeriod] reads it, and [addPeriod] posts
    to the URL from which [getPeriods] reads the list. *)
Theorem period_urls
    (Team Period : Type) (team_id : Team -> string) (period_id : Period -> string) :
  let url c := url (request (Team := Team) team_id period_id c) in
  (forall t1 p1 t2 p2,
      hasSlash t1 = false -> hasSlash t2 = false ->
      url (GetPeriod t1 p1) = url (GetPeriod t2 p2) -> t1 = t2 /\ p1 = p2)
  /\ url (GetPeriod "a/b" "c") = url (GetPeriod "a" "b/c")
  /\ (forall t p, url (GetPeriod t p) = url (GetPeriods t) <-> p = ""%string)
  /\ (forall t period,
        url (UpdatePeriod t period) = url (GetPeriod t (period_id period)))
  /\ (forall t period, url (AddPeriod t period) = url (GetPeriods t)).
Proof.
  cbv zeta.
  unfold request, getPeriod, getPeriods, updatePeriod, addPeriod.
  cbn [url]. split; [|split; [|split; [|split]]]; try reflexivity.
  - intros t1 p1 t2 p2 H1 H2 E.
    rewrite !append_assoc_string in E. apply append_cancel_l in E.
    now apply slash_separates.
  - intros t p. apply append_empty_r.
Qed.

End StorageUrls.

(** ** Further worked examples *)

Module MoreExamples.
Import BucketComponent.

(** A second bucket, and a store with the arrays of both. *)
Definition later : Bucket :=
  {| displayName := "later"; allocationPercentage := 40%Q; objectives := 1%nat |}.

Definition twoBuckets : Store :=
  {| arrays := {[ 0%nat := [1; 2; 3]%nat; 1%nat := [4]%nat ]};
     onChanged := [] |}.

(** Moving an item of an array as the drag-and-drop library does: both
    indices are clamped to the array, and the item at the first is taken out
    and put in at the second. *)
Definition moveItem (l : list nat) (fromIndex toIndex : Z) : list nat :=
  let last := (Z.of_nat (List.length l) - 1)%Z in
  let clamp i := Z.to_nat (Z.max 0 (Z.min i last)) in
  let from := clamp fromIndex in
  let to := clamp toIndex in
  if (from =? to)%nat then l
  else
    match nth_error l from with
    | Some x =>
        let rest := (firstn from l ++ skipn (S from) l)%list in
        (firstn to rest ++ x :: skipn to rest)%list
    | None => l
    end.

Example moveObjective_to_the_other_bucket :
  let s' := snd (BucketEditing.moveObjective Examples.bucket 2%nat 9%nat later
                   twoBuckets) in
  map (fun e => (arrays s' !! objectives (fst e), arrays s' !! objectives (snd e)))
      (onChanged s')
  = [(Some [1; 2; 3]%nat, Some [1; 3]%nat); (Some [4]%nat, Some [4; 9]%nat)].
Proof. vm_compute. reflexivity. Qed.

Example moveObjective_within_the_bucket :
  announced (snd (BucketEditing.moveObjective Examples.bucket 2%nat 9%nat
                    Examples.bucket Examples.store))
  = Some [1; 2; 3; 9]%nat.
Proof. vm_compute. reflexivity. Qed.

Example reorderDrop_moves_the_first_to_the_end :
  announced (snd (BucketEditing.reorderDrop Examples.bucket moveItem 0 2
                    Examples.store))
  = Some [2; 3; 1]%nat
  /\ onChanged (snd (BucketEditing.reorderDrop Examples.bucket moveItem 1 1
                       Examples.store)) = [].
Proof. vm_compute. auto. Qed.

Example edit_renames_the_bucket :
  let dialog (b : Bucket) :=
    Some {| displayName := "soon"; allocationPercentage := 50%Q;
            objectives := objectives b |} in
  let s' := snd (BucketEditing.edit Examples.bucket true dialog Examples.store) in
  map (fun e => (displayName (snd e), arrays s' !! objectives (snd e)))
      (onChanged s')
  = [("soon"%string, Some [1; 2; 3]%nat)].
Proof. vm_compute. reflexivity. Qed.

Example addPerson_puts_the_blank_person_first :
  map (map Person.id)
      (PeopleEditing.addPerson [Examples.dee; Examples.ann] "weeks" true
         (fun _ => EditPersonDialog.onOK "bob" "Bob" 5%Q))
  = [[""; "ann"; "dee"]]%string
  /\ PeopleEditing.addPerson [Examples.dee; Examples.ann] "weeks" true
       (fun _ => EditPersonDialog.onCancel) = [].
Proof. vm_compute. auto. Qed.

Example objectivesByClass_of_period :
  map fst
      (AssignmentsClassifyViews.objectivesByClass
         Examples.sumOfCommitments Examples.sumOfAllocations
         Examples.codeUnitCompare Examples.period
         (Some AssignmentsClassifyViews.Tag) None)
  = ["infra"; "q1"]%string
  /\ AssignmentsClassifyViews.objectivesByClass
       Examples.sumOfCommitments Examples.sumOfAllocations
       Examples.codeUnitCompare Examples.period None (Some "team"%string) = [].
Proof. vm_compute. auto. Qed.

(** *** Instances of the statements with a premise *)

Lemma twoBuckets_bucket :
  arrays twoBuckets !! objectives Examples.bucket = Some [1; 2; 3]%nat.
Proof. reflexivity. Defined.

Lemma twoBuckets_later :
  arrays twoBuckets !! objectives later = Some [4]%nat.
Proof. reflexivity. Defined.

Lemma store_bucket :
  arrays Examples.store !! objectives Examples.bucket = Some [1; 2; 3]%nat.
Proof. reflexivity. Defined.

Lemma two_not_in_front : ~ In 2%nat [1]%nat.
Proof. simpl. lia. Defined.

Lemma nine_is_new : ~ In 9%nat [1; 2; 3]%nat.
Proof. simpl. lia. Defined.

Lemma two_is_there : In 2%nat [1; 2; 3]%nat.
Proof. simpl. auto. Defined.

(** X2 at the two buckets: moving the objective 2 to the second bucket. *)
Lemma moveObjective_example :
  exists from to,
    onChanged (snd (BucketEditing.moveObjective Examples.bucket 2%nat 9%nat later
                      twoBuckets))
    = (onChanged twoBuckets ++ [(Examples.bucket, from); (later, to)])%list.
Proof.
  destruct (BucketEditing.moveObjective_emits_removal_then_addition
              Examples.bucket later twoBuckets
              [1; 2; 3]%nat [4]%nat [1]%nat [3]%nat 2%nat 9%nat
              twoBuckets_bucket twoBuckets_later Logic.eq_refl two_not_in_front)
    as (from & to & Ev & _).
  exists from, to. exact Ev.
Defined.

Lemma zero_is_not_two : (0 <> 2)%Z.
Proof. discriminate. Defined.

(** X3 at the example store: dropping the first objective at the end. *)
Lemma reorderDrop_example :
  emitsEdited Examples.bucket Examples.store
    (snd (BucketEditing.reorderDrop Examples.bucket moveItem 0 2 Examples.store))
    (moveItem [1; 2; 3]%nat 0 2).
Proof.
  exact (proj2 (BucketEditing.reorderDrop_emits_when_indices_differ
                  moveItem Examples.bucket Examples.store [1; 2; 3]%nat 0%Z 2%Z
                  store_bucket)
               zero_is_not_two).
Defined.

(** The buckets that the example store's bucket becomes by adding the
    objective 9 and by changing 2 into 9: copies in the array 1. *)
Definition copied : Bucket := withObjectives Examples.bucket 1%nat.

Lemma addObjective_emits_copied :
  last (onChanged (snd (addObjective Examples.bucket true (Some 9%nat)
                          Examples.store)))
  = Some (Examples.bucket, copied).
Proof. vm_compute. reflexivity. Defined.

Lemma onObjectiveChanged_emits_copied :
  last (onChanged (snd (onObjectiveChanged Examples.bucket 2%nat 9%nat
                          Examples.store)))
  = Some (Examples.bucket, copied).
Proof. vm_compute. reflexivity. Defined.

(** X4 at the example store: adding the objective 9 and deleting it. *)
Lemma deleteObjective_undoes_addObjective_example :
  emitsEdited copied
    (snd (addObjective Examples.bucket true (Some 9%nat) Examples.store))
    (snd (deleteObjective copied 9%nat
            (snd (addObjective Examples.bucket true (Some 9%nat)
                    Examples.store))))
    [1; 2; 3]%nat.
Proof.
  exact (BucketEditing.deleteObjective_undoes_addObjective
           Examples.bucket Examples.store [1; 2; 3]%nat 9%nat
           store_bucket nine_is_new copied addObjective_emits_copied).
Defined.

(** X5 at the example store: changing the objective 2 into 9 and back. *)
Lemma onObjectiveChanged_back_example :
  emitsEdited copied
    (snd (onObjectiveChanged Examples.bucket 2%nat 9%nat Examples.store))
    (snd (onObjectiveChanged copied 9%nat 2%nat
            (snd (onObjectiveChanged Examples.bucket 2%nat 9%nat
                    Examples.store))))
    [1; 2; 3]%nat.
Proof.
  exact (BucketEditing.onObjectiveChanged_back_restores
           Examples.bucket Examples.store [1; 2; 3]%nat 2%nat 9%nat
           store_bucket two_is_there nine_is_new
           copied onObjectiveChanged_emits_copied).
Defined.

(** A bucket with 4 units allocated, 1 of them committed. *)
Definition allocated4 (_ : Store) (_ : Bucket) : Q := 4%Q.
Definition committed1 (_ : Store) (_ : Bucket) : Q := 1%Q.

Lemma committed1_nonnegative :
  (0 <= committed1 Examples.store Examples.bucket)%Q.
Proof. unfold committed1. lra. Defined.

Lemma committed1_below_allocated4 :
  (committed1 Examples.store Examples.bucket
   <= allocated4 Examples.store Examples.bucket)%Q.
Proof. unfold committed1, allocated4. lra. Defined.

(** X6 at that bucket. *)
Lemma bucket_commitRatio_example :
  (0 <= commitRatio Examples.bucket allocated4 committed1 Examples.store)%Q
  /\ (commitRatio Examples.bucket allocated4 committed1 Examples.store <= 1)%Q
  /\ ((100 <= 100)%Q ->
      BucketEditing.isOverCommitted Examples.bucket 100%Q allocated4 committed1
        Examples.store = false).
Proof.
  exact (bucket_commitRatio_within_unit Examples.bucket 100%Q
           allocated4 committed1 Examples.store
           committed1_nonnegative committed1_below_allocated4).
Defined.

Lemma ann_committed_nonnegative :
  (0 <= nonNull 0 (Examples.committed !! Person.id Examples.ann))%Q.
Proof. vm_compute. discriminate. Defined.

Lemma ann_committed_below_allocated :
  (nonNull 0 (Examples.committed !! Person.id Examples.ann)
   <= PeopleComponent.personAllocated Examples.allocations Examples.ann)%Q.
Proof. vm_compute. discriminate. Defined.

(** X7 at the example person. *)
Lemma personCommitFraction_example :
  (0 <= PeopleComponent.personCommitFraction
          Examples.allocations Examples.committed Examples.ann)%Q
  /\ (PeopleComponent.personCommitFraction
        Examples.allocations Examples.committed Examples.ann <= 1)%Q.
Proof.
  exact (personCommitFraction_within_unit
           Examples.allocations Examples.committed Examples.ann
           ann_committed_nonnegative ann_committed_below_allocated).
Defined.

End MoreExamples.
